(** * ngicks/mockable: the fake clock [ClockFake] of timer.go

    A shallow embedding of [ClockFake] (timer.go, lines 109-274) and of the
    part of the Go memory model it relies on: heap cells for the
    [*time.Duration] values stored in [resetArg], backing arrays for slices,
    the unbuffered channel [TimeCh] and the two one-slot channels [ResetCh]
    and [StopCh].

    Every method body that runs between [c.Lock()] and [c.Unlock()] is one
    atomic step.  [Send] unlocks in the middle, so it is split into the
    locked prologue, the channel send and the locked epilogue; other
    goroutines may take steps in between.  A test is a schedule: a list
    of such steps, of the methods of [ClockFake] and of receives from
    [C()], in the order in which the goroutines happen to take them. *)

From Stdlib Require Import ZArith Lia.
From stdpp Require Import base option list.

Open Scope Z_scope.

(** ** Package time, as far as timer.go uses it

    An instant is a count of nanoseconds on the integer time line and a
    [time.Duration] is a count of nanoseconds.  [Add] is exact here: the
    saturation of Go's [time.Time] at the ends of its representable range
    (about 292 billion years from year 1) is outside this model. *)
Module time.
Abbreviation Time := Z (only parsing).
Abbreviation Duration := Z (only parsing).
Definition Second : Duration := 1000000000.
Definition Add (t : Time) (d : Duration) : Time := t + d.
End time.

(** ** Memory: duration cells and slice backing arrays *)

(** A [*time.Duration]: [None] is nil, [Some p] the address of a cell. *)
Abbreviation ptr := nat (only parsing).

(** A slice header.  No slice of timer.go is ever re-sliced, so the offset
    into the backing array is always 0 and is left out. *)
Record Slice := mkSlice { arr : nat; len : nat; cap : nat }.

Record Heap := mkHeap {
  durs : list time.Duration;          (* cell p holds [durs !! p] *)
  arrays : list (list (option ptr))   (* array a has capacity [length a] *)
}.

Definition empty_heap : Heap := mkHeap [] [].

(** The capacity Go's runtime picks when [append] has to grow a slice
    (runtime.growslice) is not fixed by the language; it is a parameter.
    [append] below never uses less than the length it needs. *)
Class Runtime := { growcap : nat -> nat -> nat }.

(** [&d] for a variable [d] that escapes: a fresh cell. *)
Definition new_dur (h : Heap) (d : time.Duration) : ptr * Heap :=
  (length (durs h), mkHeap (durs h ++ [d]) (arrays h)).

(** [*p] *)
Definition load (h : Heap) (p : ptr) : option time.Duration := durs h !! p.

(** [*p = v]; [None] is the nil-dereference panic. *)
Definition store (h : Heap) (p : ptr) (v : time.Duration) : option Heap :=
  if decide (p < length (durs h))%nat
  then Some (mkHeap (<[p := v]> (durs h)) (arrays h))
  else None.

(** [make([]*time.Duration, n)] *)
Definition make (h : Heap) (n : nat) : Slice * Heap :=
  (mkSlice (length (arrays h)) n n,
   mkHeap (durs h) (arrays h ++ [replicate n None])).

(** [s[i]]; [None] is the index-out-of-range panic. *)
Definition index (h : Heap) (s : Slice) (i : nat) : option (option ptr) :=
  if decide (i < len s)%nat
  then a ← arrays h !! arr s; a !! i
  else None.

(** [s[i] = x] *)
Definition set_index (h : Heap) (s : Slice) (i : nat) (x : option ptr)
  : option Heap :=
  if decide (i < len s)%nat
  then a ← arrays h !! arr s;
       if decide (i < length a)%nat
       then Some (mkHeap (durs h) (<[arr s := <[i := x]> a]> (arrays h)))
       else None
  else None.

Section WithRuntime.
Context `{Runtime}.

(** [append(s, x)]: in place when there is spare capacity, otherwise into a
    fresh, larger array.  A slice made by [make] or [append] has
    [cap s = length a] for its array [a] ([valid_slice] below), so the
    write at [len s < cap s] is inside the array. *)
Definition append (h : Heap) (s : Slice) (x : option ptr)
  : option (Slice * Heap) :=
  a ← arrays h !! arr s;
  if decide (len s < cap s)%nat
  then Some (mkSlice (arr s) (S (len s)) (cap s),
             mkHeap (durs h) (<[arr s := <[len s := x]> a]> (arrays h)))
  else
    let n := Nat.max (S (len s)) (growcap (cap s) (S (len s))) in
    Some (mkSlice (length (arrays h)) (S (len s)) n,
          mkHeap (durs h)
                 (arrays h ++ [take (len s) a ++ x :: replicate (n - S (len s)) None])).

End WithRuntime.

(** [copy(dst, src)]: copies min(len(dst), len(src)) elements. *)
Definition copy (h : Heap) (dst src : Slice) : option (nat * Heap) :=
  d ← arrays h !! arr dst;
  s ← arrays h !! arr src;
  let n := Nat.min (len dst) (len src) in
  Some (n, mkHeap (durs h) (<[arr dst := take n s ++ drop n d]> (arrays h))).

(** ** The ClockFake struct *)

(** The locals [prev] and [next] of a [Send] call that has left its locked
    prologue. *)
Record Sender := mkSender { prev : time.Time; next : time.Time }.

Record ClockFake := mkClockFake {
  current : time.Time;
  TimeCh : list Sender;             (* unbuffered: the senders parked on it, oldest first *)
  resetArg : Slice;
  ResetCh : option time.Duration;   (* buffered, capacity 1 *)
  StopCh : option unit;             (* buffered, capacity 1 *)
  sending : bool;
  scheduled : bool
}.

(** The whole program state: memory, the clock, and the [Send] calls in
    flight that are not parked on [TimeCh]: [ready] have unlocked and are
    about to execute [c.TimeCh <- next]; [resumed] have had their value
    received and are about to run the epilogue. *)
Record World := mkWorld {
  heap : Heap;
  clock : ClockFake;
  ready : list Sender;
  resumed : list Sender
}.

Definition set_clock (w : World) (c : ClockFake) : World :=
  mkWorld (heap w) c (ready w) (resumed w).

(** [NewClockFake(current)], allocating in heap [h]. *)
Definition NewClockFake (h : Heap) (current : time.Time) : World :=
  let '(s, h') := make h 0 in
  mkWorld h'
    {| current := current; TimeCh := []; resetArg := s;
       ResetCh := None; StopCh := None;
       sending := false; scheduled := false |}
    [] [].

(** ** Methods *)

(** [func (c *ClockFake) Now() time.Time] *)
Definition Now (w : World) : time.Time := current (clock w).

(** [func (c *ClockFake) SetNow(t time.Time) (prev time.Time)] *)
Definition SetNow (t : time.Time) (w : World) : World * time.Time :=
  let c := clock w in
  (set_clock w (mkClockFake t (TimeCh c) (resetArg c) (ResetCh c) (StopCh c)
                            (sending c) (scheduled c)),
   current c).

(** [select { case ch <- v: default: }] on a channel of capacity 1 *)
Definition try_send {A} (ch : option A) (v : A) : option A :=
  match ch with
  | None => Some v
  | Some _ => ch
  end.

Section Methods.
Context `{Runtime}.

(** [func (c *ClockFake) Reset(d time.Duration)].  The receive from
    [TimeCh] in the first select succeeds when a sender is parked: its
    value is dropped and the sender resumes. *)
Definition Reset (d : time.Duration) (w : World) : option World :=
  let c := clock w in
  let '(p, h1) := new_dur (heap w) d in
  '(s, h2) ← append h1 (resetArg c) (Some p);
  let '(q, woken) :=
    match TimeCh c with
    | snd :: q => (q, [snd])
    | [] => ([], [])
    end in
  Some (mkWorld h2
          (mkClockFake (current c) q s (try_send (ResetCh c) d) (StopCh c)
                       (sending c) true)
          (ready w) (resumed w ++ woken)).

(** [func (c *ClockFake) Stop() bool] *)
Definition Stop (w : World) : option (World * bool) :=
  let c := clock w in
  '(s, h1) ← append (heap w) (resetArg c) None;
  let beenScheduled := scheduled c in
  Some (mkWorld h1
          (mkClockFake (current c) (TimeCh c) s (ResetCh c)
                       (try_send (StopCh c) tt) (sending c) false)
          (ready w) (resumed w),
        beenScheduled).

End Methods.

(** The loop of [Send]:
    [for i := len(c.resetArg); i > 0; i-- { arg := c.resetArg[i-1]; if arg != nil { lastReset = *arg; break } }]
    with [lastReset] starting at 0. *)
Fixpoint Send_loop (h : Heap) (s : Slice) (i : nat) : option time.Duration :=
  match i with
  | O => Some 0
  | S j =>
      arg ← index h s j;
      match arg with
      | Some p => load h p
      | None => Send_loop h s j
      end
  end.

(** [Send], from [c.Lock()] to the first [c.Unlock()]. *)
Definition Send_prologue (w : World) : option World :=
  let c := clock w in
  lastReset ← Send_loop (heap w) (resetArg c) (len (resetArg c));
  let next := time.Add (current c) lastReset in
  let prev := current c in
  Some (mkWorld (heap w)
          (mkClockFake (time.Add next 1) (TimeCh c) (resetArg c) (ResetCh c)
                       (StopCh c) true (scheduled c))
          (ready w ++ [mkSender prev next]) (resumed w)).

(** [c.TimeCh <- next] by the [k]-th ready sender: it parks on the
    channel until a receiver takes the value. *)
Definition Send_park (k : nat) (w : World) : option World :=
  snd ← ready w !! k;
  let c := clock w in
  Some (mkWorld (heap w)
          (mkClockFake (current c) (TimeCh c ++ [snd]) (resetArg c) (ResetCh c)
                       (StopCh c) (sending c) (scheduled c))
          (delete k (ready w)) (resumed w)).

(** [<-c.C()]: a receive from [TimeCh] takes the value of the oldest
    parked sender; [None] when there is none (the receiver waits). *)
Definition C_recv (w : World) : option (World * time.Time) :=
  let c := clock w in
  match TimeCh c with
  | snd :: q =>
      Some (mkWorld (heap w)
              (mkClockFake (current c) q (resetArg c) (ResetCh c) (StopCh c)
                           (sending c) (scheduled c))
              (ready w) (resumed w ++ [snd]),
            next snd)
  | [] => None
  end.

(** [Send], from the second [c.Lock()] to [return prev], by the [k]-th
    resumed sender. *)
Definition Send_epilogue (k : nat) (w : World) : option (World * time.Time) :=
  snd ← resumed w !! k;
  let c := clock w in
  Some (mkWorld (heap w)
          (mkClockFake (current c) (TimeCh c) (resetArg c) (ResetCh c)
                       (StopCh c) false false)
          (ready w) (delete k (resumed w)),
        prev snd).

(** One iteration of the loop of [ExhaustCh].  When both channels hold a
    value Go's select picks either case; [pick_reset] is that choice.  The
    result says whether the loop goes on. *)
Definition ExhaustCh_iter (pick_reset : bool) (w : World) : World * bool :=
  let c := clock w in
  let drop_reset :=
    set_clock w (mkClockFake (current c) (TimeCh c) (resetArg c) None (StopCh c)
                             (sending c) (scheduled c)) in
  let drop_stop :=
    set_clock w (mkClockFake (current c) (TimeCh c) (resetArg c) (ResetCh c) None
                             (sending c) (scheduled c)) in
  match ResetCh c, StopCh c with
  | Some _, Some _ => (if pick_reset then drop_reset else drop_stop, true)
  | Some _, None => (drop_reset, true)
  | None, Some _ => (drop_stop, true)
  | None, None => (w, false)
  end.

(** [func (c *ClockFake) CloneResetArg() []*time.Duration] *)
Definition CloneResetArg (w : World) : option (World * Slice) :=
  let c := clock w in
  let '(out, h1) := make (heap w) (len (resetArg c)) in
  '(_, h2) ← copy h1 out (resetArg c);
  Some (mkWorld h2 c (ready w) (resumed w), out).

(** The loop of [LastReset]:
    [for i := len(c.resetArg); i > 0; i-- { if c.resetArg[i-1] != nil { return *c.resetArg[i-1], true } }; return 0, false] *)
Fixpoint LastReset_loop (h : Heap) (s : Slice) (i : nat)
  : option (time.Duration * bool) :=
  match i with
  | O => Some (0, false)
  | S j =>
      arg ← index h s j;
      match arg with
      | Some p => d ← load h p; Some (d, true)
      | None => LastReset_loop h s j
      end
  end.

(** [func (c *ClockFake) LastReset() (dur time.Duration, ok bool)] *)
Definition LastReset (w : World) : option (time.Duration * bool) :=
  LastReset_loop (heap w) (resetArg (clock w)) (len (resetArg (clock w))).

(** [func (c *ClockFake) IsSending() bool] *)
Definition IsSending (w : World) : bool := sending (clock w).

(** [func (c *ClockFake) IsScheduled() bool] *)
Definition IsScheduled (w : World) : bool := scheduled (clock w).

(** ** Schedules

    A [Call] is one atomic step of some goroutine on the clock; a schedule
    is a list of calls, any interleaving of the goroutines of a test. *)
Inductive Call :=
| CNow
| CSetNow (t : time.Time)
| CReset (d : time.Duration)
| CStop
| CSendPrologue
| CSendPark (k : nat)
| CRecv                          (* [<-c.C()] *)
| CSendEpilogue (k : nat)
| CExhaustCh (pick_reset : bool) (* one iteration of its loop *)
| CCloneResetArg
| CLastReset
| CIsSending
| CIsScheduled.

(** What a call hands back to its caller. *)
Inductive Ret :=
| RUnit
| RTime (t : time.Time)
| RBool (b : bool)
| RSlice (s : Slice)
| RLast (dur : time.Duration) (ok : bool).

Inductive Outcome :=
| Returns (w : World) (r : Ret)
| Blocked      (* the goroutine cannot take this step now *)
| Panic.       (* nil dereference or index out of range *)

Definition or_panic {A} (o : option A) (k : A -> Outcome) : Outcome :=
  match o with
  | Some a => k a
  | None => Panic
  end.

Definition or_blocked {A} (o : option A) (k : A -> Outcome) : Outcome :=
  match o with
  | Some a => k a
  | None => Blocked
  end.

Section Schedules.
Context `{Runtime}.

Definition step (w : World) (c : Call) : Outcome :=
  match c with
  | CNow => Returns w (RTime (Now w))
  | CSetNow t => let '(w', p) := SetNow t w in Returns w' (RTime p)
  | CReset d => or_panic (Reset d w) (fun w' => Returns w' RUnit)
  | CStop => or_panic (Stop w) (fun '(w', b) => Returns w' (RBool b))
  | CSendPrologue => or_panic (Send_prologue w) (fun w' => Returns w' RUnit)
  | CSendPark k => or_blocked (Send_park k w) (fun w' => Returns w' RUnit)
  | CRecv => or_blocked (C_recv w) (fun '(w', t) => Returns w' (RTime t))
  | CSendEpilogue k =>
      or_blocked (Send_epilogue k w) (fun '(w', t) => Returns w' (RTime t))
  | CExhaustCh b => let '(w', _) := ExhaustCh_iter b w in Returns w' RUnit
  | CCloneResetArg =>
      or_panic (CloneResetArg w) (fun '(w', s) => Returns w' (RSlice s))
  | CLastReset =>
      or_panic (LastReset w) (fun '(d, ok) => Returns w (RLast d ok))
  | CIsSending => Returns w (RBool (IsSending w))
  | CIsScheduled => Returns w (RBool (IsScheduled w))
  end.

(** Runs a schedule; [None] if some step blocks or panics. *)
Fixpoint run (w : World) (cs : list Call) : option (World * list Ret) :=
  match cs with
  | [] => Some (w, [])
  | c :: cs' =>
      match step w c with
      | Returns w' r => '(w'', rs) ← run w' cs'; Some (w'', r :: rs)
      | _ => None
      end
  end.

End Schedules.

(** ** What a caller sees of the history *)

(** The elements of a slice. *)
Definition elems (h : Heap) (s : Slice) : option (list (option ptr)) :=
  a ← arrays h !! arr s;
  if decide (len s <= length a)%nat then Some (take (len s) a) else None.

(** An entry of the history as the spec names it: [Some d] is Armed(d),
    [None] is Cancelled. *)
Definition deref (h : Heap) (x : option ptr) : option (option time.Duration) :=
  match x with
  | None => Some None
  | Some p => d ← load h p; Some (Some d)
  end.

(** The slice [s] read through its pointers. *)
Definition view (h : Heap) (s : Slice) : option (list (option time.Duration)) :=
  ps ← elems h s; mapM (deref h) ps.

(** The history the clock holds. *)
Definition history (w : World) : option (list (option time.Duration)) :=
  view (heap w) (resetArg (clock w)).

(** The duration of the most recent Armed entry, if there is one. *)
Definition last_armed (hs : list (option time.Duration)) : option time.Duration :=
  last (omap id hs).

(** A runtime that doubles the capacity, for running examples. *)
Definition doubling : Runtime := {| growcap old _ := (2 * old)%nat |}.

(** The method calls of TestClockFake (timer_test.go, lines 125-174) in
    the order the test makes them, with the clock started at 0 instead of
    [time.Now()].  [send] is the test's helper of that name up to the
    point where [IsSending()] is true; the receives of the test from
    [ResetCh] and [StopCh] are left out. *)
Definition TestClockFake_calls : list Call :=
  let send := [CNow; CSendPrologue; CSendPark 0; CIsSending] in
  let testSend := send ++ [CIsSending; CRecv; CNow; CSendEpilogue 0; CIsSending] in
  testSend ++ testSend ++
  [CStop; CLastReset; CReset time.Second; CNow] ++ testSend ++
  [CNow; CLastReset; CStop; CLastReset; CExhaustCh true; CExhaustCh true;
   CExhaustCh true; CReset (3 * time.Second); CStop] ++ send ++
  [CStop; CRecv; CSendEpilogue 0; CCloneResetArg].

(** The history tags a schedule records: [Some d] for each [Reset(d)],
    [None] for each [Stop()], in call order. *)
Definition recorded (cs : list Call) : list (option time.Duration) :=
  omap (fun c => match c with
                 | CReset d => Some (Some d)
                 | CStop => Some None
                 | _ => None
                 end) cs.

(** The schedule of a sequence of arm/cancel calls. *)
Definition arm_cancel (ops : list (option time.Duration)) : list Call :=
  (fun o => match o with Some d => CReset d | None => CStop end) <$> ops.

(** ** What a caller can do with the slice [CloneResetArg] returned *)

(** [out[i] = x] *)
Definition set_elem (out : Slice) (i : nat) (x : option ptr) (w : World)
  : option World :=
  h' ← set_index (heap w) out i x;
  Some (mkWorld h' (clock w) (ready w) (resumed w)).

(** A sequence of such assignments. *)
Fixpoint set_elems (out : Slice) (ms : list (nat * option ptr)) (w : World)
  : option World :=
  match ms with
  | [] => Some w
  | (i, x) :: ms' => w' ← set_elem out i x w; set_elems out ms' w'
  end.

(** [*out[i] = v] *)
Definition store_through (out : Slice) (i : nat) (v : time.Duration) (w : World)
  : option World :=
  x ← index (heap w) out i;
  p ← x;
  h' ← store (heap w) p v;
  Some (mkWorld h' (clock w) (ready w) (resumed w)).

(** ** Well-formed memory *)

Definition valid_slice (h : Heap) (s : Slice) : Prop :=
  exists a, arrays h !! arr s = Some a /\ length a = cap s /\ (len s <= cap s)%nat.

Definition wf (w : World) : Prop :=
  valid_slice (heap w) (resetArg (clock w)) /\ is_Some (history w).

(** What [LastReset] returns for a history. *)
Definition LastReset_result (hs : list (option time.Duration))
  : time.Duration * bool :=
  match last_armed hs with
  | Some d => (d, true)
  | None => (0, false)
  end.

(** The [lastReset] that [Send] computes for a history. *)
Definition last_duration (hs : list (option time.Duration)) : time.Duration :=
  default 0 (last_armed hs).

(** ** Schedules around one [Send] *)

(** Calls that neither set the clock nor touch a [Send] in flight. *)
Definition observer (c : Call) : bool :=
  match c with
  | CNow | CStop | CExhaustCh _ | CCloneResetArg | CLastReset
  | CIsSending | CIsScheduled => true
  | _ => false
  end.

(** [Reset] is such a call as long as no sender is parked on [TimeCh];
    when one is parked, [Reset] receives its value. *)
Definition bystander (c : Call) : bool :=
  match c with
  | CReset _ => true
  | _ => observer c
  end.

(** The calls that complete a parked send: a receive from [C()], or the
    drain inside [Reset]. *)
Definition receiver (c : Call) : bool :=
  match c with
  | CRecv | CReset _ => true
  | _ => false
  end.

(** No [Send] is in flight. *)
Definition quiet (w : World) : Prop :=
  ready w = [] /\ TimeCh (clock w) = [] /\ resumed w = [].

(** One whole [Send] call whose value is received by [r], with the calls
    [m1], [m2], [m3] of other goroutines scheduled between its steps. *)
Definition Send_call (m1 m2 : list Call) (r : Call) (m3 : list Call) : list Call :=
  CSendPrologue :: m1 ++ CSendPark 0 :: m2 ++ r :: m3 ++ [CSendEpilogue 0].

(** The [Send] calls in flight. *)
Definition in_flight (w : World) : list Sender :=
  ready w ++ TimeCh (clock w) ++ resumed w.

(** The part of the state a [Send] in flight depends on. *)
Definition flight (w : World)
  : time.Time * bool * list Sender * list Sender * list Sender :=
  (current (clock w), sending (clock w), TimeCh (clock w), ready w, resumed w).

(** What a schedule does to the scheduled flag. *)
Definition scheduled_after (b : bool) (cs : list Call) : bool :=
  fold_left (fun b c => match c with
                        | CReset _ => true
                        | CStop | CSendEpilogue _ => false
                        | _ => b
                        end) cs b.

(** ** The rest of timer.go *)

(** [func (c *ClockFake) ExhaustCh()], run with no other goroutine taking
    a step during its loop.  [picks f] is the choice of the select when
    both channels hold a value and [f] iterations are left; [None] if
    [fuel] iterations do not reach the [return]. *)
Fixpoint ExhaustCh (fuel : nat) (picks : nat -> bool) (w : World) : option World :=
  match fuel with
  | O => None
  | S f =>
      let '(w', again) := ExhaustCh_iter (picks f) w in
      if again then ExhaustCh f picks w' else Some w'
  end.



(** [w] with its current instant replaced. *)
Definition with_current (t : time.Time) (w : World) : World :=
  set_clock w (mkClockFake t (TimeCh (clock w)) (resetArg (clock w))
                           (ResetCh (clock w)) (StopCh (clock w))
                           (sending (clock w)) (scheduled (clock w))).

(** The pointers in [resetArg] are valid and pairwise distinct. *)
Definition fresh_ptrs (w : World) : Prop :=
  exists ps,
    elems (heap w) (resetArg (clock w)) = Some ps /\
    NoDup (omap id ps) /\
    Forall (fun p => (p < length (durs (heap w)))%nat) (omap id ps).

(** The calls that move the clock. *)
Definition sets_clock (c : Call) : bool :=
  match c with
  | CSetNow _ | CSendPrologue => true
  | _ => false
  end.

(** The method calls proper: every call but the two later steps of a
    [Send] and the receive from [C()]. *)
Definition method_entry (c : Call) : bool :=
  match c with
  | CSendPark _ | CRecv | CSendEpilogue _ => false
  | _ => true
  end.

(** [NowerFake] (timer.go, lines 33-49). *)
Module Nower.

Record NowerFake := mkNowerFake { current : time.Time }.

(** [func (n *NowerFake) Now() time.Time] *)
Definition Now (n : NowerFake) : time.Time := current n.

(** [func (n *NowerFake) SetNow(t time.Time) (prev time.Time)] *)
Definition SetNow (t : time.Time) (n : NowerFake) : NowerFake * time.Time :=
  (mkNowerFake t, current n).

(** [SetNow] called with each instant of [ts] in turn; the values the
    calls returned. *)
Fixpoint SetNows (ts : list time.Time) (n : NowerFake)
  : NowerFake * list time.Time :=
  match ts with
  | [] => (n, [])
  | t :: ts' =>
      let '(n1, p) := SetNow t n in
      let '(n2, ps) := SetNows ts' n1 in
      (n2, p :: ps)
  end.

End Nower.

(** * Proofs *)

(** ** Slices *)

Lemma elems_length h s ps : elems h s = Some ps -> length ps = len s.
Proof.
  unfold elems. intros E.
  destruct (arrays h !! arr s) as [a|]; simpl in E; [|done].
  case_decide; [|done]. injection E as <-. rewrite length_take. lia.
Qed.

Lemma valid_slice_elems h s :
  valid_slice h s -> exists ps, elems h s = Some ps.
Proof.
  intros (a & Ha & Hc & Hl). unfold elems. rewrite Ha. simpl.
  case_decide; [eauto | lia].
Qed.

Lemma index_elems h s ps i :
  elems h s = Some ps -> (i < len s)%nat -> index h s i = ps !! i.
Proof.
  unfold elems, index. intros E Hi.
  destruct (arrays h !! arr s) as [a|]; simpl in *; [|done].
  repeat case_decide; try done; try lia.
  injection E as <-. by rewrite lookup_take_lt.
Qed.

Lemma view_length h s hs : view h s = Some hs -> length hs = len s.
Proof.
  unfold view. intros E.
  destruct (elems h s) as [ps|] eqn:Eps; simpl in E; [|done].
  apply length_mapM in E. apply elems_length in Eps. lia.
Qed.

(** Reading through pointers only depends on the cells. *)
Lemma deref_durs h h' x : durs h = durs h' -> deref h x = deref h' x.
Proof. intros E. destruct x; simpl; [|done]. unfold load. by rewrite E. Qed.

Lemma mapM_deref_durs h h' ps :
  durs h = durs h' -> mapM (deref h) ps = mapM (deref h') ps.
Proof. intros E. apply mapM_ext. intros x. by apply deref_durs. Qed.

(** Allocating cells keeps what was readable. *)
Lemma deref_alloc h h' l x y :
  durs h' = durs h ++ l -> deref h x = Some y -> deref h' x = Some y.
Proof.
  intros E. destruct x as [p|]; [|done]. unfold deref, load.
  destruct (durs h !! p) as [d|] eqn:Ep; [|done].
  by rewrite E, (lookup_app_l_Some _ l _ _ Ep).
Qed.

Lemma mapM_deref_alloc h h' l ps hs :
  durs h' = durs h ++ l ->
  mapM (deref h) ps = Some hs -> mapM (deref h') ps = Some hs.
Proof.
  intros E. rewrite !mapM_Some. intros F.
  eapply Forall2_impl; [exact F|]. intros x y. by apply (deref_alloc h h' l).
Qed.

Lemma mapM_snoc {A B} (f : A -> option B) l x k y :
  mapM f l = Some k -> f x = Some y -> mapM f (l ++ [x]) = Some (k ++ [y]).
Proof.
  rewrite !mapM_Some. intros F Hx. apply Forall2_app; [done|].
  by constructor.
Qed.

Section HeapProofs.
Context `{Runtime}.

(** [append] adds one element at the end and keeps the cells. *)
Lemma append_elems h s x ps :
  valid_slice h s -> elems h s = Some ps ->
  exists s' h',
    append h s x = Some (s', h') /\ durs h' = durs h /\
    valid_slice h' s' /\ elems h' s' = Some (ps ++ [x]).
Proof.
  intros (a & Ha & Hc & Hl) E. unfold append. rewrite Ha. simpl.
  assert (ps = take (len s) a) as ->.
  { unfold elems in E. rewrite Ha in E. simpl in E.
    case_decide; [|done]. by injection E. }
  pose proof (lookup_lt_Some _ _ _ Ha) as Hlt.
  case_decide as Hspare.
  - eexists _, _. split; [done|]. split; [done|]. split.
    + exists (<[len s := x]> a). simpl.
      rewrite list_lookup_insert_eq by done.
      rewrite length_insert. repeat split; [done | lia].
    + unfold elems. simpl. rewrite list_lookup_insert_eq by done. simpl.
      rewrite length_insert. case_decide; [|lia]. f_equal.
      destruct (lookup_lt_is_Some_2 a (len s)) as [y Hy]; [lia|].
      rewrite (take_S_r (<[len s := x]> a) (len s) x).
      * by rewrite take_insert_ge.
      * apply list_lookup_insert_eq. lia.
  - set (n := Nat.max (S (len s)) (growcap (cap s) (S (len s)))).
    assert (len s = length a) as Hfull by lia.
    eexists _, _. split; [done|]. split; [done|]. split.
    + eexists. simpl. rewrite lookup_app_r by done.
      rewrite Nat.sub_diag. simpl. split; [done|].
      rewrite length_app, length_take, length_cons, length_replicate. lia.
    + unfold elems. simpl. rewrite lookup_app_r by done.
      rewrite Nat.sub_diag. simpl.
      rewrite length_app, length_take, length_cons, length_replicate.
      case_decide; [|lia]. f_equal.
      rewrite (take_ge a) by lia.
      rewrite Hfull.
      change (a ++ x :: ?r) with (a ++ [x] ++ r). rewrite app_assoc.
      apply take_app_length'. rewrite length_app. simpl. lia.
Qed.

End HeapProofs.

(** ** The two backward scans *)

Lemma last_armed_snoc_Some hs d : last_armed (hs ++ [Some d]) = Some d.
Proof. unfold last_armed. rewrite omap_app. simpl. apply last_snoc. Qed.

Lemma last_armed_snoc_None hs : last_armed (hs ++ [None]) = last_armed hs.
Proof. unfold last_armed. rewrite omap_app. simpl. by rewrite app_nil_r. Qed.

(** [last_armed] in the words of the spec: the entry [Some d] after which
    only Cancelled entries follow; none if every entry is Cancelled. *)
Lemma last_armed_Some hs d :
  last_armed hs = Some d <->
  exists l1 l2, hs = l1 ++ Some d :: l2 /\ Forall (fun x => x = None) l2.
Proof.
  split.
  - induction hs as [|x hs IH] using rev_ind; [done|].
    destruct x as [d'|].
    + rewrite last_armed_snoc_Some. intros [= ->].
      exists hs, []. by split.
    + rewrite last_armed_snoc_None. intros E.
      destruct (IH E) as (l1 & l2 & -> & F).
      exists l1, (l2 ++ [None]). split.
      * by rewrite <- app_assoc.
      * apply Forall_app. split; [done|]. by constructor.
  - intros (l1 & l2 & -> & F). unfold last_armed.
    assert (omap id l2 = []) as E.
    { induction F as [|x l2 -> _ IH]; [done|]. done. }
    change (Some d :: l2) with ([Some d] ++ l2).
    rewrite !omap_app, E. apply last_snoc.
Qed.

Lemma last_armed_None hs :
  last_armed hs = None <-> Forall (fun x => x = None) hs.
Proof.
  unfold last_armed. rewrite last_None. split.
  - induction hs as [|[d|] hs IH]; simpl; [done|done|].
    intros E. constructor; [done|]. by apply IH.
  - induction 1 as [|x l -> _ IH]; [done|]. done.
Qed.

Lemma scan_entry h s ps hs j :
  elems h s = Some ps -> mapM (deref h) ps = Some hs -> (j < len s)%nat ->
  exists x y, index h s j = Some x /\ hs !! j = Some y /\
              deref h x = Some y /\ take (S j) hs = take j hs ++ [y].
Proof.
  intros Eps Ehs Hj.
  pose proof (elems_length _ _ _ Eps) as Hl.
  destruct (lookup_lt_is_Some_2 ps j) as [x Hx]; [lia|].
  apply mapM_Some in Ehs.
  destruct (Forall2_lookup_l _ _ _ _ _ Ehs Hx) as (y & Hy & Hd).
  exists x, y. rewrite (index_elems _ _ _ _ Eps Hj).
  repeat split; try done. by apply take_S_r.
Qed.

Lemma LastReset_loop_spec h s ps hs i :
  elems h s = Some ps -> mapM (deref h) ps = Some hs -> (i <= len s)%nat ->
  LastReset_loop h s i = Some (LastReset_result (take i hs)).
Proof.
  intros Eps Ehs. induction i as [|j IH]; intros Hi.
  - by rewrite take_0.
  - destruct (scan_entry _ _ _ _ j Eps Ehs) as (x & y & Hx & Hy & Hd & Ht); [lia|].
    simpl. rewrite Hx, Ht. simpl. unfold LastReset_result.
    destruct x as [p|]; simpl in Hd.
    + destruct (load h p) as [d|]; simpl in *; [|done].
      injection Hd as <-. by rewrite last_armed_snoc_Some.
    + injection Hd as <-. rewrite last_armed_snoc_None. apply IH. lia.
Qed.

Lemma Send_loop_spec h s ps hs i :
  elems h s = Some ps -> mapM (deref h) ps = Some hs -> (i <= len s)%nat ->
  Send_loop h s i = Some (last_duration (take i hs)).
Proof.
  intros Eps Ehs. induction i as [|j IH]; intros Hi.
  - by rewrite take_0.
  - destruct (scan_entry _ _ _ _ j Eps Ehs) as (x & y & Hx & Hy & Hd & Ht); [lia|].
    simpl. rewrite Hx, Ht. simpl. unfold last_duration.
    destruct x as [p|]; simpl in Hd.
    + destruct (load h p) as [d|]; simpl in *; [|done].
      injection Hd as <-. by rewrite last_armed_snoc_Some.
    + injection Hd as <-. rewrite last_armed_snoc_None. apply IH. lia.
Qed.

Lemma view_inv h s hs :
  view h s = Some hs ->
  exists ps, elems h s = Some ps /\ mapM (deref h) ps = Some hs.
Proof.
  unfold view. destruct (elems h s) as [ps|]; simpl; [|done]. eauto.
Qed.

Lemma LastReset_history w hs :
  history w = Some hs -> LastReset w = Some (LastReset_result hs).
Proof.
  intros E. pose proof (view_length _ _ _ E) as Hl.
  destruct (view_inv _ _ _ E) as (ps & Eps & Ehs).
  unfold LastReset. rewrite (LastReset_loop_spec _ _ _ _ _ Eps Ehs) by lia.
  by rewrite take_ge by lia.
Qed.

Lemma Send_loop_history w hs :
  history w = Some hs ->
  Send_loop (heap w) (resetArg (clock w)) (len (resetArg (clock w)))
  = Some (last_duration hs).
Proof.
  intros E. pose proof (view_length _ _ _ E) as Hl.
  destruct (view_inv _ _ _ E) as (ps & Eps & Ehs).
  rewrite (Send_loop_spec _ _ _ _ _ Eps Ehs) by lia.
  by rewrite take_ge by lia.
Qed.

(** ** Methods keep the memory well formed *)

Lemma elems_frame h h' s :
  arrays h !! arr s = arrays h' !! arr s -> elems h s = elems h' s.
Proof. unfold elems. by intros ->. Qed.

Lemma view_frame h h' s :
  arrays h !! arr s = arrays h' !! arr s -> durs h = durs h' ->
  view h s = view h' s.
Proof.
  intros Ea Ed. unfold view. rewrite (elems_frame _ _ _ Ea).
  destruct (elems h' s); simpl; [|done]. by apply mapM_deref_durs.
Qed.

Lemma valid_slice_frame h h' s :
  arrays h !! arr s = arrays h' !! arr s -> valid_slice h s -> valid_slice h' s.
Proof. intros E (a & Ha & Hc). exists a. by rewrite <- E. Qed.

Lemma NewClockFake_wf h t :
  wf (NewClockFake h t) /\ history (NewClockFake h t) = Some [].
Proof.
  assert (history (NewClockFake h t) = Some []) as E.
  { unfold history, view, elems. simpl.
    by rewrite lookup_app_r, Nat.sub_diag by done. }
  split; [split|]; [|by rewrite E|done].
  exists []. simpl. by rewrite lookup_app_r, Nat.sub_diag by done.
Qed.

Section MethodProofs.
Context `{Runtime}.

Lemma view_append h s x hs y :
  valid_slice h s -> view h s = Some hs -> deref h x = Some y ->
  exists s' h',
    append h s x = Some (s', h') /\ durs h' = durs h /\
    valid_slice h' s' /\ view h' s' = Some (hs ++ [y]).
Proof.
  intros V E D. destruct (view_inv _ _ _ E) as (ps & Eps & Ehs).
  destruct (append_elems h s x ps V Eps) as (s' & h' & Ha & Hd & V' & E').
  exists s', h'. repeat split; try done.
  unfold view. rewrite E'. simpl.
  rewrite (mapM_deref_durs h' h) by done. by apply mapM_snoc.
Qed.

Lemma Reset_history d w hs :
  wf w -> history w = Some hs ->
  exists w', Reset d w = Some w' /\ wf w' /\ history w' = Some (hs ++ [Some d]).
Proof.
  intros [V _] E. unfold Reset, new_dur.
  set (h1 := mkHeap (durs (heap w) ++ [d]) (arrays (heap w))).
  assert (valid_slice h1 (resetArg (clock w))) as V1
    by (by apply (valid_slice_frame (heap w))).
  assert (view h1 (resetArg (clock w)) = Some hs) as E1.
  { destruct (view_inv _ _ _ E) as (ps & Eps & Ehs). unfold view.
    rewrite <- (elems_frame (heap w) h1) by done. rewrite Eps. simpl.
    by apply (mapM_deref_alloc (heap w) h1 [d]). }
  assert (deref h1 (Some (length (durs (heap w)))) = Some (Some d)) as D.
  { unfold deref, load. simpl. by rewrite lookup_app_r, Nat.sub_diag by done. }
  destruct (view_append _ _ _ _ _ V1 E1 D) as (s' & h' & -> & _ & V' & E').
  simpl. destruct (TimeCh (clock w)); eexists; (split; [done|]);
    unfold wf, history; simpl; rewrite E'; eauto.
Qed.

Lemma Stop_history w hs :
  wf w -> history w = Some hs ->
  exists w', Stop w = Some (w', scheduled (clock w)) /\ wf w' /\
             history w' = Some (hs ++ [None]).
Proof.
  intros [V _] E. unfold Stop.
  destruct (view_append _ _ None _ None V E eq_refl) as (s' & h' & -> & _ & V' & E').
  simpl. eexists. split; [done|]. unfold wf, history. simpl. rewrite E'. eauto.
Qed.

End MethodProofs.

(** [CloneResetArg] returns a slice on a fresh array holding the same
    pointers, and leaves the clock and every cell as they were. *)
Lemma CloneResetArg_spec w hs :
  wf w -> history w = Some hs ->
  exists w' out,
    CloneResetArg w = Some (w', out) /\
    clock w' = clock w /\ ready w' = ready w /\ resumed w' = resumed w /\
    durs (heap w') = durs (heap w) /\
    arr out <> arr (resetArg (clock w)) /\
    valid_slice (heap w') out /\
    elems (heap w') out = elems (heap w) (resetArg (clock w)) /\
    view (heap w') out = Some hs /\
    wf w' /\ history w' = Some hs.
Proof.
  intros [V _] E. destruct V as (a & Ha & Hc & Hl).
  set (s := resetArg (clock w)) in *.
  pose proof (lookup_lt_Some _ _ _ Ha) as Hlt.
  unfold CloneResetArg, make, copy. fold s. simpl.
  rewrite (lookup_app_r _ _ (length (arrays (heap w)))), Nat.sub_diag by done.
  simpl. rewrite (lookup_app_l_Some _ _ _ _ Ha). simpl.
  rewrite Nat.min_id, drop_replicate, Nat.sub_diag. simpl. rewrite app_nil_r.
  assert (elems (heap w) s = Some (take (len s) a)) as Eps.
  { unfold elems. rewrite Ha. simpl. case_decide; [done|lia]. }
  set (h2 := mkHeap _ _).
  assert (arrays h2 !! arr s = Some a) as Ha2.
  { unfold h2. simpl. rewrite list_lookup_insert_ne by lia.
    by apply lookup_app_l_Some. }
  assert (elems h2 (mkSlice (length (arrays (heap w))) (len s) (len s))
          = Some (take (len s) a)) as Eout.
  { unfold elems, h2. simpl.
    rewrite list_lookup_insert_eq by (rewrite length_app; simpl; lia). simpl.
    rewrite length_take. case_decide; [|lia]. f_equal. apply take_ge.
    rewrite length_take. lia. }
  assert (view h2 s = Some hs) as E2.
  { rewrite <- E. symmetry. apply view_frame; [|done]. by rewrite Ha, Ha2. }
  eexists _, _. split; [done|]. simpl.
  repeat split; try done.
  - lia.
  - eexists. simpl.
    rewrite list_lookup_insert_eq by (rewrite length_app; simpl; lia).
    split; [done|]. rewrite length_take. lia.
  - by rewrite Eout, Eps.
  - unfold view. rewrite Eout. simpl.
    destruct (view_inv _ _ _ E) as (ps & Eps' & Ehs).
    unfold s in Eps. rewrite Eps in Eps'. by injection Eps' as <-.
  - exists a. split; [exact Ha2|done].
Qed.

Lemma CloneResetArg_internal w w' out :
  wf w -> CloneResetArg w = Some (w', out) ->
  elems (heap w') (resetArg (clock w)) = elems (heap w) (resetArg (clock w)).
Proof.
  intros [(a & Ha & _) _]. unfold CloneResetArg, make, copy. simpl.
  destruct (_ !! length (arrays (heap w))) as [dst|]; simpl; [|done].
  rewrite (lookup_app_l_Some _ _ _ _ Ha). simpl. intros [= <- <-].
  apply elems_frame. simpl.
  pose proof (lookup_lt_Some _ _ _ Ha).
  rewrite list_lookup_insert_ne by lia. rewrite Ha.
  by apply lookup_app_l_Some.
Qed.

(** ** Steps and schedules *)

Section ScheduleProofs.
Context `{Runtime}.

(** In well-formed memory no step panics, and a step extends the history
    by exactly what it records. *)
Lemma step_inv w c hs :
  wf w -> history w = Some hs ->
  step w c <> Panic /\
  forall w' r, step w c = Returns w' r ->
               wf w' /\ history w' = Some (hs ++ recorded [c]).
Proof.
  intros W E. assert (wf w /\ history w = Some (hs ++ [])) as K
    by (by rewrite app_nil_r).
  destruct c; simpl.
  - split; [done|]. by intros ? ? [= <- <-].
  - split; [done|]. by intros ? ? [= <- <-].
  - destruct (Reset_history d w hs W E) as (w1 & -> & W1 & E1). simpl.
    split; [done|]. by intros ? ? [= <- <-].
  - destruct (Stop_history w hs W E) as (w1 & -> & W1 & E1). simpl.
    split; [done|]. by intros ? ? [= <- <-].
  - unfold Send_prologue. rewrite (Send_loop_history w hs E). simpl.
    split; [done|]. by intros ? ? [= <- <-].
  - unfold Send_park. destruct (ready w !! k); simpl; (split; [done|]); [|done].
    by intros ? ? [= <- <-].
  - unfold C_recv. destruct (TimeCh (clock w)); simpl; (split; [done|]); [done|].
    by intros ? ? [= <- <-].
  - unfold Send_epilogue.
    destruct (resumed w !! k); simpl; (split; [done|]); [|done].
    by intros ? ? [= <- <-].
  - split; [by destruct (ExhaustCh_iter pick_reset w)|].
    unfold ExhaustCh_iter.
    destruct (ResetCh (clock w)), (StopCh (clock w)), pick_reset;
      by intros ? ? [= <- <-].
  - destruct (CloneResetArg_spec w hs W E)
      as (w1 & out & -> & _ & _ & _ & _ & _ & _ & _ & _ & W1 & E1). simpl.
    split; [done|]. intros ? ? [= <- <-]. by rewrite app_nil_r.
  - rewrite (LastReset_history w hs E). simpl. unfold LastReset_result.
    split; [by destruct (last_armed hs)|].
    destruct (last_armed hs); by intros ? ? [= <- <-].
  - split; [done|]. by intros ? ? [= <- <-].
  - split; [done|]. by intros ? ? [= <- <-].
Qed.

Lemma run_cons w c cs w' rs :
  run w (c :: cs) = Some (w', rs) <->
  exists w1 r rs1, step w c = Returns w1 r /\ run w1 cs = Some (w', rs1) /\
                   rs = r :: rs1.
Proof.
  simpl. split.
  - destruct (step w c) as [w1 r| |]; [|done|done].
    destruct (run w1 cs) as [[w2 rs1]|] eqn:Er; simpl; [|done].
    intros [= <- <-]. by exists w1, r, rs1.
  - intros (w1 & r & rs1 & -> & -> & ->). done.
Qed.

Lemma run_app w cs1 cs2 w' rs :
  run w (cs1 ++ cs2) = Some (w', rs) <->
  exists w1 rs1 rs2, run w cs1 = Some (w1, rs1) /\
                     run w1 cs2 = Some (w', rs2) /\ rs = rs1 ++ rs2.
Proof.
  revert w rs. induction cs1 as [|c cs1 IH]; intros w rs.
  - simpl. split.
    + intros E. by exists w, [], rs.
    + by intros (w1 & rs1 & rs2 & [= <- <-] & E & ->).
  - rewrite <- app_comm_cons, run_cons. split.
    + intros (w1 & r & rs1 & Es & Er & ->).
      apply IH in Er as (w2 & rs2 & rs3 & E1 & E2 & ->).
      exists w2, (r :: rs2), rs3. rewrite run_cons. split; [|done].
      by exists w1, r, rs2.
    + intros (w2 & rs2 & rs3 & E1 & E2 & ->).
      apply run_cons in E1 as (w1 & r & rs1 & Es & Er & ->).
      exists w1, r, (rs1 ++ rs3). split; [done|]. split; [|done].
      apply IH. by exists w2, rs1, rs3.
Qed.

Lemma run_length w cs w' rs : run w cs = Some (w', rs) -> length rs = length cs.
Proof.
  revert w rs. induction cs as [|c cs IH]; intros w rs.
  - by intros [= <- <-].
  - rewrite run_cons. intros (w1 & r & rs1 & _ & Er & ->). simpl.
    by rewrite (IH _ _ Er).
Qed.

Lemma recorded_app cs1 cs2 : recorded (cs1 ++ cs2) = recorded cs1 ++ recorded cs2.
Proof. apply omap_app. Qed.

Lemma run_inv w cs w' rs hs :
  wf w -> history w = Some hs -> run w cs = Some (w', rs) ->
  wf w' /\ history w' = Some (hs ++ recorded cs).
Proof.
  revert w rs hs. induction cs as [|c cs IH]; intros w rs hs W E.
  - intros [= <- <-]. by rewrite app_nil_r.
  - rewrite run_cons. intros (w1 & r & rs1 & Es & Er & ->).
    destruct (step_inv w c hs W E) as [_ K].
    destruct (K _ _ Es) as [W1 E1].
    destruct (IH _ _ _ W1 E1 Er) as [W2 E2]. split; [done|].
    rewrite E2, <- app_assoc. f_equal. f_equal.
    change (c :: cs) with ([c] ++ cs). by rewrite recorded_app.
Qed.

(** Every world a schedule reaches from a new clock is well formed and
    holds the history the schedule recorded. *)
Lemma reachable_inv h t cs w rs :
  run (NewClockFake h t) cs = Some (w, rs) ->
  wf w /\ history w = Some (recorded cs).
Proof.
  destruct (NewClockFake_wf h t) as [W E]. intros R.
  exact (run_inv _ _ _ _ _ W E R).
Qed.

(** A sequence of arm/cancel calls records itself and always runs. *)
Lemma recorded_arm_cancel ops : recorded (arm_cancel ops) = ops.
Proof.
  induction ops as [|[d|] ops IH]; [done| |];
    change (recorded (arm_cancel (?o :: ops))) with (o :: recorded (arm_cancel ops));
    by rewrite IH.
Qed.

Lemma arm_cancel_runs w ops :
  wf w -> exists w' rs, run w (arm_cancel ops) = Some (w', rs).
Proof.
  revert w. induction ops as [|o ops IH]; intros w W.
  - by exists w, [].
  - destruct (W) as [_ [hs E]].
    assert (exists w1 r, step w (match o with Some d => CReset d | None => CStop end)
                         = Returns w1 r /\ wf w1) as (w1 & r & Es & W1).
    { destruct o as [d|]; simpl.
      - destruct (Reset_history d w hs W E) as (w1 & -> & W1 & _). simpl. eauto.
      - destruct (Stop_history w hs W E) as (w1 & -> & W1 & _). simpl. eauto. }
    destruct (IH w1 W1) as (w' & rs & Er).
    exists w', (r :: rs). apply run_cons. by exists w1, r, rs.
Qed.

End ScheduleProofs.

(** ** What [Reset] and [Stop] do to the fields of the clock *)

Section FieldProofs.
Context `{Runtime}.

Lemma Reset_fields d w w' :
  Reset d w = Some w' ->
  current (clock w') = current (clock w) /\
  sending (clock w') = sending (clock w) /\
  scheduled (clock w') = true /\
  ResetCh (clock w') = try_send (ResetCh (clock w)) d /\
  StopCh (clock w') = StopCh (clock w) /\
  TimeCh (clock w') = tail (TimeCh (clock w)) /\
  ready w' = ready w /\
  resumed w' = resumed w ++ take 1 (TimeCh (clock w)).
Proof.
  unfold Reset, new_dur.
  destruct (append _ _ _) as [[s h2]|]; simpl; [|done].
  destruct (TimeCh (clock w)); intros [= <-]; by simpl.
Qed.

Lemma Stop_fields w w' b :
  Stop w = Some (w', b) ->
  b = scheduled (clock w) /\
  current (clock w') = current (clock w) /\
  sending (clock w') = sending (clock w) /\
  scheduled (clock w') = false /\
  ResetCh (clock w') = ResetCh (clock w) /\
  StopCh (clock w') = try_send (StopCh (clock w)) tt /\
  TimeCh (clock w') = TimeCh (clock w) /\
  ready w' = ready w /\
  resumed w' = resumed w.
Proof.
  unfold Stop. destruct (append _ _ _) as [[s h1]|]; simpl; [|done].
  intros [= <- <-]. by simpl.
Qed.

End FieldProofs.

(** ** One [Send] among calls of other goroutines *)

Section SendProofs.
Context `{Runtime}.

Lemma step_scheduled w c w' r :
  step w c = Returns w' r ->
  scheduled (clock w') = scheduled_after (scheduled (clock w)) [c].
Proof.
  destruct c; simpl.
  - by intros [= <- <-].
  - by intros [= <- <-].
  - destruct (Reset d w) as [w1|] eqn:E; simpl; [|done]. intros [= <- <-].
    by destruct (Reset_fields _ _ _ E) as (_ & _ & -> & _).
  - destruct (Stop w) as [[w1 b]|] eqn:E; simpl; [|done]. intros [= <- <-].
    by destruct (Stop_fields _ _ _ E) as (_ & _ & _ & -> & _).
  - destruct (Send_prologue w) as [w1|] eqn:E; simpl; [|done]. intros [= <- <-].
    unfold Send_prologue in E. destruct (Send_loop _ _ _); simpl in E; [|done].
    by injection E as <-.
  - destruct (Send_park k w) as [w1|] eqn:E; simpl; [|done]. intros [= <- <-].
    unfold Send_park in E. destruct (ready w !! k); simpl in E; [|done].
    by injection E as <-.
  - destruct (C_recv w) as [[w1 t]|] eqn:E; simpl; [|done]. intros [= <- <-].
    unfold C_recv in E. destruct (TimeCh (clock w)); [done|].
    by injection E as <- <-.
  - destruct (Send_epilogue k w) as [[w1 t]|] eqn:E; simpl; [|done].
    intros [= <- <-]. unfold Send_epilogue in E.
    destruct (resumed w !! k); simpl in E; [|done]. by injection E as <- <-.
  - unfold ExhaustCh_iter.
    destruct (ResetCh (clock w)), (StopCh (clock w)), pick_reset;
      by intros [= <- <-].
  - destruct (CloneResetArg w) as [[w1 s]|] eqn:E; simpl; [|done].
    intros [= <- <-]. unfold CloneResetArg, make in E.
    destruct (copy _ _ _) as [[n h2]|]; simpl in E; [|done].
    by injection E as <- <-.
  - destruct (LastReset w) as [[d ok]|]; simpl; [|done]. by intros [= <- <-].
  - by intros [= <- <-].
  - by intros [= <- <-].
Qed.

Lemma scheduled_after_app b cs1 cs2 :
  scheduled_after b (cs1 ++ cs2) = scheduled_after (scheduled_after b cs1) cs2.
Proof. apply fold_left_app. Qed.

Lemma run_scheduled w cs w' rs :
  run w cs = Some (w', rs) ->
  scheduled (clock w') = scheduled_after (scheduled (clock w)) cs.
Proof.
  revert w rs. induction cs as [|c cs IH]; intros w rs.
  - by intros [= <- <-].
  - rewrite run_cons. intros (w1 & r & rs1 & Es & Er & ->).
    rewrite (IH _ _ Er), (step_scheduled _ _ _ _ Es). done.
Qed.

(** A bystander always takes its step, and leaves a [Send] in flight
    alone. *)
Lemma bystander_step w c :
  wf w -> bystander c = true ->
  observer c = true \/ TimeCh (clock w) = [] ->
  exists w' r, step w c = Returns w' r /\ wf w' /\ flight w' = flight w.
Proof.
  intros W B Q. destruct (W) as [_ [hs E]].
  destruct (step_inv w c hs W E) as [NP K].
  destruct (step w c) as [w' r| |] eqn:Es; [| |done].
  2:{ destruct c; simpl in *; try done.
      - by destruct (Reset d w).
      - by destruct (Stop w) as [[? ?]|].
      - by destruct (ExhaustCh_iter pick_reset w).
      - by destruct (CloneResetArg w) as [[? ?]|].
      - by destruct (LastReset w) as [[? ?]|]. }
  - exists w', r. split; [done|]. split; [by apply (K w' r)|].
    unfold flight. destruct c; simpl in B, Es; try done.
    + by injection Es as <- <-.
    + destruct Q as [Q|Q]; [done|].
      destruct (Reset d w) as [w1|] eqn:ER; simpl in Es; [|done].
      injection Es as <- <-.
      destruct (Reset_fields _ _ _ ER) as (-> & -> & _ & _ & _ & -> & -> & ->).
      rewrite Q. simpl. by rewrite app_nil_r.
    + destruct (Stop w) as [[w1 b]|] eqn:ES; simpl in Es; [|done].
      injection Es as <- <-.
      by destruct (Stop_fields _ _ _ ES) as (_ & -> & -> & _ & _ & _ & -> & -> & ->).
    + revert Es. unfold ExhaustCh_iter.
      destruct (ResetCh (clock w)), (StopCh (clock w)), pick_reset;
        by intros [= <- <-].
    + destruct (CloneResetArg_spec w hs W E)
        as (w1 & out & EC & Hc & Hr & Hs & _).
      rewrite EC in Es. simpl in Es. injection Es as <- <-.
      by rewrite Hc, Hr, Hs.
    + destruct (LastReset w) as [[d ok]|]; simpl in Es; [|done].
      by injection Es as <- <-.
    + by injection Es as <- <-.
    + by injection Es as <- <-.
Qed.

Lemma bystanders_run w m :
  wf w -> Forall (fun c => bystander c = true) m ->
  Forall (fun c => observer c = true) m \/ TimeCh (clock w) = [] ->
  exists w' rs, run w m = Some (w', rs) /\ wf w' /\ flight w' = flight w.
Proof.
  revert w. induction m as [|c m IH]; intros w W B Q.
  - by exists w, [].
  - apply Forall_cons in B as [Bc B].
    destruct (bystander_step w c W Bc) as (w1 & r & Es & W1 & F1).
    { destruct Q as [Q|Q]; [left|by right]. by apply Forall_cons in Q as [? _]. }
    destruct (IH w1 W1 B) as (w2 & rs & Er & W2 & F2).
    { destruct Q as [Q|Q]; [left|right].
      - by apply Forall_cons in Q as [_ ?].
      - unfold flight in F1. injection F1 as _ _ -> _ _. done. }
    exists w2, (r :: rs). split; [|split; [done|congruence]].
    apply run_cons. by exists w1, r, rs.
Qed.

End SendProofs.

(** ** Senders in flight, whatever else is in flight

    A [Send] fixes [prev] and [next] in its prologue; no step of any call
    changes them; a receive hands out the [next] of the oldest parked
    sender and the epilogue returns the [prev] of its sender. *)

Section SenderProofs.
Context `{Runtime}.





End SenderProofs.

Section SendCallProofs.
Context `{Runtime}.

Lemma step_wf w c w' r : wf w -> step w c = Returns w' r -> wf w'.
Proof.
  intros W Es. destruct (W) as [_ [hs E]].
  destruct (step_inv w c hs W E) as [_ K]. by apply (K w' r).
Qed.

(** A [Send] up to the point where it is parked on [TimeCh]. *)
Lemma Send_until_parked w hs m1 m2 :
  wf w -> history w = Some hs -> quiet w ->
  Forall (fun c => bystander c = true) m1 ->
  Forall (fun c => observer c = true) m2 ->
  let D := time.Add (Now w) (last_duration hs) in
  exists w1 rs1 rs2,
    run w (CSendPrologue :: m1 ++ CSendPark 0 :: m2)
    = Some (w1, RUnit :: rs1 ++ RUnit :: rs2) /\
    length rs1 = length m1 /\ length rs2 = length m2 /\
    wf w1 /\
    flight w1 = (time.Add D 1, true, [mkSender (Now w) D], [], []) /\
    scheduled (clock w1) = scheduled_after (scheduled (clock w)) (m1 ++ m2).
Proof.
  intros W E (Qr & Qt & Qs) B1 O2 D.
  (* the prologue *)
  assert (exists wp, step w CSendPrologue = Returns wp RUnit /\
                     flight wp = (time.Add D 1, true, [], [mkSender (Now w) D], []))
    as (wp & Ep & Fp).
  { simpl. unfold Send_prologue. rewrite (Send_loop_history w hs E). simpl.
    eexists. split; [done|]. unfold flight. simpl. by rewrite Qr, Qt, Qs. }
  pose proof (step_wf _ _ _ _ W Ep) as Wp.
  (* other goroutines, nothing parked yet *)
  destruct (bystanders_run wp m1 Wp B1) as (wa & rs1 & Ea & Wa & Fa).
  { right. unfold flight in Fp. by injection Fp as _ _ -> _ _. }
  rewrite Fp in Fa.
  (* the sender parks *)
  assert (exists wb, step wa (CSendPark 0) = Returns wb RUnit /\
                     flight wb = (time.Add D 1, true, [mkSender (Now w) D], [], []) /\
                     scheduled (clock wb) = scheduled (clock wa))
    as (wb & Eb & Fb & Sb).
  { unfold flight in Fa. injection Fa as Fc Fs Ft Fr Fu.
    simpl. unfold Send_park. rewrite Fr. simpl.
    eexists. split; [done|]. unfold flight. simpl. by rewrite Fc, Fs, Ft, Fu. }
  pose proof (step_wf _ _ _ _ Wa Eb) as Wb.
  (* observers while it is parked *)
  destruct (bystanders_run wb m2 Wb) as (wc & rs2 & Ec & Wc & Fc).
  { eapply Forall_impl; [exact O2|]. intros c Hc. by destruct c. }
  { by left. }
  rewrite Fb in Fc.
  exists wc, rs1, rs2. split; [|split; [|split; [|split; [done|split; [done|]]]]].
  - apply run_cons. exists wp, RUnit, (rs1 ++ RUnit :: rs2).
    split; [done|]. split; [|done].
    apply run_app. exists wa, rs1, (RUnit :: rs2). split; [done|]. split; [|done].
    apply run_cons. by exists wb, RUnit, rs2.
  - by apply run_length in Ea.
  - by apply run_length in Ec.
  - rewrite (run_scheduled _ _ _ _ Ec), Sb, (run_scheduled _ _ _ _ Ea).
    rewrite (step_scheduled _ _ _ _ Ep). simpl.
    by rewrite scheduled_after_app.
Qed.

(** A parked [Send] from the receive of its value to its return. *)
Lemma Send_after_parked w1 c b snd r m3 :
  wf w1 -> flight w1 = (c, b, [snd], [], []) ->
  receiver r = true ->
  Forall (fun c => bystander c = true) m3 ->
  exists w2 rr rs3,
    run w1 (r :: m3 ++ [CSendEpilogue 0])
    = Some (w2, rr :: rs3 ++ [RTime (prev snd)]) /\
    (r = CRecv -> rr = RTime (next snd)) /\
    length rs3 = length m3 /\
    wf w2 /\ flight w2 = (c, false, [], [], []) /\
    scheduled (clock w2) = false.
Proof.
  intros W1 F1 R B3.
  unfold flight in F1. injection F1 as Fc Fs Ft Fr Fu.
  (* the receive *)
  assert (exists wd rr, step w1 r = Returns wd rr /\
                        (r = CRecv -> rr = RTime (next snd)) /\
                        flight wd = (c, b, [], [], [snd]))
    as (wd & rr & Ed & Hrr & Fd).
  { destruct r; try done; simpl.
    - destruct (W1) as [_ [hs E]].
      destruct (Reset_history d w1 hs W1 E) as (wd & ER & _). rewrite ER. simpl.
      exists wd, RUnit. split; [done|]. split; [done|].
      destruct (Reset_fields _ _ _ ER) as (Hc & Hs & _ & _ & _ & Ht & Hr & Hu).
      unfold flight. rewrite Hc, Hs, Ht, Hr, Hu, Ft, Fu, Fc, Fs, Fr. done.
    - unfold C_recv. rewrite Ft. simpl. eexists _, _. split; [done|].
      split; [done|]. unfold flight. simpl. by rewrite Fc, Fs, Fr, Fu. }
  pose proof (step_wf _ _ _ _ W1 Ed) as Wd.
  (* other goroutines, nothing parked *)
  destruct (bystanders_run wd m3 Wd B3) as (we & rs3 & Ee & We & Fe).
  { right. unfold flight in Fd. by injection Fd as _ _ -> _ _. }
  rewrite Fd in Fe.
  (* the epilogue *)
  assert (exists wg, step we (CSendEpilogue 0) = Returns wg (RTime (prev snd)) /\
                     flight wg = (c, false, [], [], []) /\
                     scheduled (clock wg) = false)
    as (wg & Eg & Fg & Sg).
  { unfold flight in Fe. injection Fe as Gc Gs Gt Gr Gu.
    simpl. unfold Send_epilogue. rewrite Gu. simpl.
    eexists. split; [done|]. unfold flight. simpl. by rewrite Gc, Gt, Gr. }
  exists wg, rr, rs3. split; [|split; [done|split; [|split; [|done]]]].
  - apply run_cons. exists wd, rr, (rs3 ++ [RTime (prev snd)]).
    split; [done|]. split; [|done].
    apply run_app. exists we, rs3, [RTime (prev snd)]. split; [done|].
    split; [|done]. apply run_cons. by exists wg, (RTime (prev snd)), [].
  - by apply run_length in Ee.
  - by apply (step_wf _ _ _ _ We Eg).
Qed.

(** The whole call. *)
Lemma Send_call_runs w hs m1 m2 r m3 :
  wf w -> history w = Some hs -> quiet w ->
  Forall (fun c => bystander c = true) m1 ->
  Forall (fun c => observer c = true) m2 ->
  receiver r = true ->
  Forall (fun c => bystander c = true) m3 ->
  let D := time.Add (Now w) (last_duration hs) in
  exists w' rs1 rs2 rr rs3,
    run w (Send_call m1 m2 r m3)
    = Some (w', RUnit :: rs1 ++ RUnit :: rs2 ++ rr :: rs3 ++ [RTime (Now w)]) /\
    length rs1 = length m1 /\ length rs2 = length m2 /\ length rs3 = length m3 /\
    (r = CRecv -> rr = RTime D) /\
    wf w' /\ quiet w' /\
    Now w' = time.Add D 1 /\ IsSending w' = false /\ IsScheduled w' = false.
Proof.
  intros W E Q B1 O2 R B3 D.
  destruct (Send_until_parked w hs m1 m2 W E Q B1 O2)
    as (w1 & rs1 & rs2 & E1 & L1 & L2 & W1 & F1 & _).
  destruct (Send_after_parked w1 _ _ _ r m3 W1 F1 R B3)
    as (w2 & rr & rs3 & E2 & Hrr & L3 & W2 & F2 & S2).
  exists w2, rs1, rs2, rr, rs3.
  unfold flight in F2. injection F2 as Fc Fs Ft Fr Fu.
  split; [|repeat split; try done; apply W2].
  unfold Send_call.
  replace (CSendPrologue :: m1 ++ CSendPark 0 :: m2 ++ r :: m3 ++ [CSendEpilogue 0])
    with ((CSendPrologue :: m1 ++ CSendPark 0 :: m2) ++ r :: m3 ++ [CSendEpilogue 0])
    by (simpl; by rewrite <- app_assoc).
  apply run_app. exists w1, (RUnit :: rs1 ++ RUnit :: rs2), (rr :: rs3 ++ [RTime (Now w)]).
  split; [done|]. split; [done|].
  simpl. by rewrite <- app_assoc.
Qed.

End SendCallProofs.

(** ** The duration [Send] uses, in the words of the spec *)



Lemma LastReset_result_armed l1 d l2 :
  Forall (fun x => x = None) l2 -> LastReset_result (l1 ++ Some d :: l2) = (d, true).
Proof.
  intros F. unfold LastReset_result.
  assert (last_armed (l1 ++ Some d :: l2) = Some d) as ->; [|done].
  apply last_armed_Some. by exists l1, l2.
Qed.

Lemma LastReset_result_not_found hs :
  (LastReset_result hs).2 = false <-> Forall (fun x => x = None) hs.
Proof.
  rewrite <- last_armed_None. unfold LastReset_result.
  by destruct (last_armed hs).
Qed.

Lemma LastReset_result_zero hs :
  (LastReset_result hs).2 = false -> (LastReset_result hs).1 = 0.
Proof. unfold LastReset_result. by destruct (last_armed hs). Qed.


(** * The claims *)

Section Claims.
Context `{Runtime}.









(** C4.  After any schedule [cs], any further sequence [ops] of arm and
    cancel calls runs to its end, and [CloneResetArg] then returns the
    recorded calls in call order, [Some d] for [Reset(d)] and [None] for
    [Stop()].  Every step of every call keeps the history and only adds
    at its end what the call records: an entry for [Reset] and [Stop],
    nothing for the other calls. *)
Theorem history_in_call_order h t cs w rs ops :
  run (NewClockFake h t) cs = Some (w, rs) ->
  exists w1 rs1 w2 out,
    run w (arm_cancel ops) = Some (w1, rs1) /\
    CloneResetArg w1 = Some (w2, out) /\
    view (heap w2) out = Some (recorded cs ++ ops) /\
    history w1 = Some (recorded cs ++ ops) /\
    forall c w' r,
      step w1 c = Returns w' r ->
      history w' = Some ((recorded cs ++ ops) ++ recorded [c]).
Proof.
  intros R. destruct (reachable_inv _ _ _ _ _ R) as [W E].
  destruct (arm_cancel_runs w ops W) as (w1 & rs1 & R1).
  destruct (run_inv _ _ _ _ _ W E R1) as [W1 E1].
  rewrite recorded_arm_cancel in E1.
  destruct (CloneResetArg_spec w1 _ W1 E1)
    as (w2 & out & EC & _ & _ & _ & _ & _ & _ & _ & Hv & _).
  exists w1, rs1, w2, out. repeat split; try done.
  intros c w' r Es. destruct (step_inv w1 c _ W1 E1) as [_ K].
  by apply (K w' r).
Qed.

(** C6.  [Stop] returns the scheduled flag as it was and clears it.  The
    flag is set exactly when some [Reset] has been called after which no
    [Stop] was called and no [Send] ran its epilogue. *)
Theorem Stop_returns_scheduled h t cs w rs :
  run (NewClockFake h t) cs = Some (w, rs) ->
  exists w',
    Stop w = Some (w', IsScheduled w) /\
    IsScheduled w' = false /\
    (IsScheduled w = true <->
     exists l1 d l2,
       cs = l1 ++ CReset d :: l2 /\
       Forall (fun c => c <> CStop /\ forall k, c <> CSendEpilogue k) l2).
Proof.
  intros R. destruct (reachable_inv _ _ _ _ _ R) as [W E].
  destruct (Stop_history w _ W E) as (w' & ES & _).
  exists w'. split; [done|].
  destruct (Stop_fields _ _ _ ES) as (_ & _ & _ & HS & _).
  split; [done|].
  unfold IsScheduled. rewrite (run_scheduled _ _ _ _ R). simpl.
  clear. induction cs as [|c cs IH] using rev_ind.
  - simpl. split; [done|]. intros (l1 & d & l2 & E & _). by destruct l1.
  - rewrite scheduled_after_app. simpl. split.
    + intros Hb.
      assert ((exists d, c = CReset d) \/
              (scheduled_after false cs = true /\ c <> CStop /\
               forall k, c <> CSendEpilogue k)) as [[d ->]|(Hc & N1 & N2)]
        by (destruct c; eauto; try done).
      * by exists cs, d, [].
      * apply IH in Hc as (l1 & d & l2 & -> & F).
        exists l1, d, (l2 ++ [c]). split; [by rewrite <- app_assoc|].
        apply Forall_app. split; [done|]. by constructor.
    + intros (l1 & d & l2 & E & F).
      destruct l2 as [|c' l2 _] using rev_ind.
      * apply app_inj_tail in E as [_ ->]. done.
      * rewrite app_comm_cons, app_assoc in E.
        apply app_inj_tail in E as [-> ->].
        apply Forall_app in F as [F Fc]. apply Forall_singleton in Fc as [N1 N2].
        assert (scheduled_after false (l1 ++ CReset d :: l2) = true) as ->
          by (apply IH; by exists l1, d, l2).
        destruct c'; try done. by destruct (N2 k).
Qed.

(** C7, as the code has it.  [Stop] on an idle clock returns false and
    leaves the current instant, both flags, the senders in flight,
    [ResetCh] and the answer of [LastReset] as they were; it still appends
    a nil entry to the history and offers a value on [StopCh]. *)
Theorem Stop_while_idle h t cs w rs :
  run (NewClockFake h t) cs = Some (w, rs) ->
  IsScheduled w = false -> IsSending w = false ->
  exists w',
    Stop w = Some (w', false) /\
    Now w' = Now w /\ IsScheduled w' = false /\ IsSending w' = false /\
    flight w' = flight w /\
    ResetCh (clock w') = ResetCh (clock w) /\
    LastReset w' = LastReset w /\
    history w = Some (recorded cs) /\
    history w' = Some (recorded cs ++ [None]) /\
    StopCh (clock w') = try_send (StopCh (clock w)) tt.
Proof.
  intros R HS HG. destruct (reachable_inv _ _ _ _ _ R) as [W E].
  destruct (Stop_history w _ W E) as (w' & ES & W' & E').
  unfold IsScheduled in HS. rewrite HS in ES.
  destruct (Stop_fields _ _ _ ES) as (_ & Hc & Hs & Hd & Hr & Ht & Hq & Hy & Hu).
  exists w'. unfold Now, IsScheduled, IsSending, flight.
  rewrite Hc, Hs, Hd, Hr, Ht, Hq, Hy, Hu.
  repeat split; try done.
  rewrite (LastReset_history _ _ E), (LastReset_history _ _ E').
  unfold LastReset_result. by rewrite last_armed_snoc_None.
Qed.

(** C9.  After any schedule [cs] and any further sequence [ops] of arm
    and cancel calls, [LastReset] returns [(d, true)] for the last
    [Reset(d)] recorded, whatever [Stop] calls follow it, and [(0, false)]
    exactly when no [Reset] was recorded. *)
Theorem LastReset_most_recent_armed h t cs w rs ops :
  run (NewClockFake h t) cs = Some (w, rs) ->
  exists w1 rs1 dur ok,
    run w (arm_cancel ops) = Some (w1, rs1) /\
    LastReset w1 = Some (dur, ok) /\
    (forall l1 d l2,
        recorded cs ++ ops = l1 ++ Some d :: l2 ->
        Forall (fun x => x = None) l2 -> dur = d /\ ok = true) /\
    (ok = false <-> Forall (fun x => x = None) (recorded cs ++ ops)) /\
    (ok = false -> dur = 0).
Proof.
  intros R. destruct (reachable_inv _ _ _ _ _ R) as [W E].
  destruct (arm_cancel_runs w ops W) as (w1 & rs1 & R1).
  destruct (run_inv _ _ _ _ _ W E R1) as [W1 E1].
  rewrite recorded_arm_cancel in E1.
  exists w1, rs1, (LastReset_result (recorded cs ++ ops)).1,
         (LastReset_result (recorded cs ++ ops)).2.
  split; [done|]. split.
  { rewrite (LastReset_history _ _ E1). by destruct (LastReset_result _). }
  split; [|split].
  - intros l1 d l2 -> F. by rewrite LastReset_result_armed.
  - apply LastReset_result_not_found.
  - apply LastReset_result_zero.
Qed.

(** Assigning to elements of one slice leaves the cells and every other
    array alone. *)
Lemma set_index_frame hp out i x hp' :
  set_index hp out i x = Some hp' ->
  durs hp' = durs hp /\
  forall a, a <> arr out -> arrays hp' !! a = arrays hp !! a.
Proof.
  unfold set_index. case_decide; [|done].
  destruct (arrays hp !! arr out) as [l|]; simpl; [|done].
  case_decide; [|done]. intros [= <-]. simpl. split; [done|].
  intros a Ha. by apply list_lookup_insert_ne.
Qed.

Lemma set_elems_frame out ms w1 w2 :
  set_elems out ms w1 = Some w2 ->
  clock w2 = clock w1 /\ ready w2 = ready w1 /\ resumed w2 = resumed w1 /\
  durs (heap w2) = durs (heap w1) /\
  forall a, a <> arr out -> arrays (heap w2) !! a = arrays (heap w1) !! a.
Proof.
  revert w1. induction ms as [|[i x] ms IH]; intros w1.
  - by intros [= <-].
  - simpl. unfold set_elem.
    destruct (set_index (heap w1) out i x) as [hp'|] eqn:Ei; simpl; [|done].
    intros Em. destruct (IH _ Em) as (-> & -> & -> & -> & Ha). simpl.
    destruct (set_index_frame _ _ _ _ _ Ei) as [-> Hb].
    repeat split; try done. intros a Hne. by rewrite Ha, Hb.
Qed.

(** A store through an entry of a slice shows in the view of every slice
    that holds the same pointer at that place. *)
Lemma store_through_view w out i v s hs ps p :
  elems (heap w) s = Some ps -> view (heap w) s = Some hs ->
  ps !! i = Some (Some p) -> index (heap w) out i = Some (Some p) ->
  exists w' hs',
    store_through out i v w = Some w' /\ clock w' = clock w /\
    view (heap w') s = Some hs' /\ hs' !! i = Some (Some v).
Proof.
  intros Eps Ev Hi Ho.
  assert (mapM (deref (heap w)) ps = Some hs) as Ehs.
  { unfold view in Ev. by rewrite Eps in Ev. }
  apply mapM_Some in Ehs.
  destruct (Forall2_lookup_l _ _ _ _ _ Ehs Hi) as (y & Hy & Hd).
  assert (p < length (durs (heap w)))%nat as Hp.
  { simpl in Hd. unfold load in Hd.
    destruct (durs (heap w) !! p) eqn:El; [|done]. by apply lookup_lt_Some in El. }
  unfold store_through, store. rewrite Ho. simpl. case_decide; [|lia]. simpl.
  set (hp' := mkHeap _ _).
  assert (is_Some (mapM (deref hp') ps)) as [hs' Ehs'].
  { apply mapM_is_Some. apply Forall_lookup. intros j x Hj.
    destruct (Forall2_lookup_l _ _ _ _ _ Ehs Hj) as (y0 & _ & Hd0).
    destruct x as [q|]; [|by eexists]. simpl in *. unfold load in *. simpl.
    destruct (durs (heap w) !! q) eqn:El; [|done].
    apply lookup_lt_Some in El.
    destruct (lookup_lt_is_Some_2 (<[p:=v]> (durs (heap w))) q) as [z0 ->];
      [by rewrite length_insert|]. by eexists. }
  eexists _, hs'. split; [done|]. split; [done|]. split.
  - unfold view. simpl. rewrite <- (elems_frame (heap w) hp') by done.
    rewrite Eps. done.
  - apply mapM_Some in Ehs'.
    destruct (Forall2_lookup_l _ _ _ _ _ Ehs' Hi) as (y' & -> & Hd').
    simpl in Hd'. unfold load in Hd'. simpl in Hd'.
    rewrite list_lookup_insert_eq in Hd' by done. simpl in Hd'. congruence.
Qed.

(** C5, as the code has it.  [CloneResetArg] copies the slice, not the
    durations: the slice it returns holds the pointers of the internal
    history on an array of its own.  Whatever the caller assigns to
    elements of that slice, [LastReset], [Send] and a later
    [CloneResetArg] see the history as before.  A store through one of
    its entries changes the duration recorded at that place. *)
Theorem CloneResetArg_copies_the_slice h t cs w rs w1 out ms w2 :
  run (NewClockFake h t) cs = Some (w, rs) ->
  CloneResetArg w = Some (w1, out) ->
  set_elems out ms w1 = Some w2 ->
  view (heap w1) out = Some (recorded cs) /\
  elems (heap w1) out = elems (heap w) (resetArg (clock w)) /\
  clock w2 = clock w /\
  history w2 = Some (recorded cs) /\
  LastReset w2 = LastReset w /\
  ready <$> Send_prologue w2 = ready <$> Send_prologue w /\
  (exists w3 out',
     CloneResetArg w2 = Some (w3, out') /\
     view (heap w3) out' = Some (recorded cs)) /\
  (forall i p v,
     index (heap w1) out i = Some (Some p) ->
     exists w3 hs',
       store_through out i v w1 = Some w3 /\
       history w3 = Some hs' /\ hs' !! i = Some (Some v)).
Proof.
  intros R EC Em. destruct (reachable_inv _ _ _ _ _ R) as [W E].
  destruct (CloneResetArg_spec w _ W E)
    as (w1' & out' & EC' & Hc & Hr & Hu & Hd & Hne & Vo & Eo & Hv & W1 & E1).
  rewrite EC in EC'. injection EC' as <- <-.
  destruct (set_elems_frame _ _ _ _ Em) as (Hc2 & Hr2 & Hu2 & Hd2 & Ha2).
  assert (history w2 = Some (recorded cs)) as E2.
  { rewrite <- E1. unfold history. rewrite Hc2. apply view_frame; [|done].
    apply Ha2. rewrite Hc. done. }
  assert (wf w2) as W2.
  { split; [|by rewrite E2]. rewrite Hc2.
    apply (valid_slice_frame (heap w1)); [|apply W1].
    symmetry. apply Ha2. by rewrite Hc. }
  split; [done|]. split; [done|]. split; [congruence|]. split; [done|].
  split; [by rewrite (LastReset_history _ _ E2), (LastReset_history _ _ E)|].
  split.
  { unfold Send_prologue.
    rewrite (Send_loop_history _ _ E2), (Send_loop_history _ _ E). simpl.
    by rewrite Hc2, Hc, Hr2, Hr. }
  split.
  { destruct (CloneResetArg_spec w2 _ W2 E2)
      as (w3 & out3 & EC3 & _ & _ & _ & _ & _ & _ & _ & Hv3 & _).
    by exists w3, out3. }
  intros i p v Hi.
  destruct (view_inv _ _ _ E1) as (ps & Eps & Ehs).
  assert (ps !! i = Some (Some p)) as Hps.
  { rewrite Hc, (CloneResetArg_internal _ _ _ W EC), <- Eo in Eps.
    assert (i < len out)%nat as Hlt
      by (unfold index in Hi; by case_decide).
    by rewrite <- (index_elems _ _ _ _ Eps Hlt). }
  destruct (store_through_view w1 out i v _ _ _ _ Eps E1 Hps Hi)
    as (w3 & hs' & Es & Hc3 & Hv3 & Hl3).
  exists w3, hs'. split; [done|]. split; [|done].
  unfold history. by rewrite Hc3.
Qed.

End Claims.

(** * Further properties of timer.go *)

(** ** NowerFake *)

(** X4.  A chain of [SetNow] calls on a [NowerFake]: every call returns the
    instant the call before it set, the first one the instant the value
    started with, and [Now()] afterwards is the last instant set. *)
Theorem NowerFake_SetNow_chain ts n :
  (Nower.SetNows ts n).2 = take (length ts) (Nower.Now n :: ts) /\
  Nower.Now (Nower.SetNows ts n).1 = default (Nower.Now n) (last ts).
Proof.
  revert n. induction ts as [|t ts IH]; intros n; [done|].
  simpl. destruct (Nower.SetNows ts (Nower.mkNowerFake t)) as [n2 ps] eqn:E.
  destruct (IH (Nower.mkNowerFake t)) as [IH1 IH2]. rewrite E in IH1, IH2.
  simpl in *. split; [by rewrite IH1|].
  rewrite IH2, last_cons. by destruct (last ts).
Qed.

Section Further.
Context `{Runtime}.

(** ** Calls never panic, methods never block *)

(** X1.  In every state a schedule reaches from a new clock no call panics:
    the two backward loops and [CloneResetArg] stay inside the slice and
    never dereference nil.  Every method call returns at once, whatever
    the channels hold; only the later steps of a [Send] and a receive
    from [C()] can have to wait. *)
Theorem calls_never_panic h t cs w rs c :
  run (NewClockFake h t) cs = Some (w, rs) ->
  step w c <> Panic /\
  (method_entry c = true -> exists w' r, step w c = Returns w' r) /\
  (step w CRecv = Blocked <-> TimeCh (clock w) = []).
Proof.
  intros R. destruct (reachable_inv _ _ _ _ _ R) as [W E].
  destruct (step_inv w c _ W E) as [NP _]. split; [done|]. split.
  - intros M. destruct (step w c) as [w' r| |] eqn:Es; [by eauto| |done].
    destruct c; simpl in *; try done.
    + by destruct (Reset d w).
    + by destruct (Stop w) as [[? ?]|].
    + by destruct (Send_prologue w).
    + by destruct (ExhaustCh_iter pick_reset w).
    + by destruct (CloneResetArg w) as [[? ?]|].
    + by destruct (LastReset w) as [[? ?]|].
  - simpl. unfold C_recv. by destruct (TimeCh (clock w)).
Qed.

(** ** What moves the clock *)

Lemma step_Now w c w' r :
  step w c = Returns w' r -> sets_clock c = false -> Now w' = Now w.
Proof.
  unfold Now. destruct c; simpl; try done.
  - by intros [= <- <-].
  - destruct (Reset d w) as [w1|] eqn:E; simpl; [|done]. intros [= <- <-] _.
    by destruct (Reset_fields _ _ _ E) as (-> & _).
  - destruct (Stop w) as [[w1 b]|] eqn:E; simpl; [|done]. intros [= <- <-] _.
    by destruct (Stop_fields _ _ _ E) as (_ & -> & _).
  - unfold Send_park. destruct (ready w !! k); simpl; [|done].
    by intros [= <- <-].
  - unfold C_recv. destruct (TimeCh (clock w)); simpl; [done|].
    by intros [= <- <-].
  - unfold Send_epilogue. destruct (resumed w !! k); simpl; [|done].
    by intros [= <- <-].
  - unfold ExhaustCh_iter.
    destruct (ResetCh (clock w)), (StopCh (clock w)), pick_reset;
      by intros [= <- <-].
  - unfold CloneResetArg, make.
    destruct (copy _ _ _) as [[n h2]|]; simpl; [|done]. by intros [= <- <-].
  - destruct (LastReset w) as [[d ok]|]; simpl; [|done]. by intros [= <- <-].
  - by intros [= <- <-].
  - by intros [= <- <-].
Qed.

(** X2.  The current instant changes only in [SetNow] and in the prologue of
    [Send]: a schedule without them, whatever it arms, cancels, receives
    or completes, leaves [Now()] as it was. *)
Theorem Now_moves_only_by_SetNow_and_Send w cs w' rs :
  run w cs = Some (w', rs) ->
  Forall (fun c => sets_clock c = false) cs ->
  Now w' = Now w.
Proof.
  revert w rs. induction cs as [|c cs IH]; intros w rs.
  - by intros [= <- <-].
  - rewrite run_cons. intros (w1 & r & rs1 & Es & Er & ->) F.
    apply Forall_cons in F as [Fc F].
    by rewrite (IH _ _ Er F), (step_Now _ _ _ _ Es Fc).
Qed.

(** ** SetNow *)

Lemma with_current_id w : with_current (Now w) w = w.
Proof. by destruct w as [hp [] ? ?]. Qed.

Lemma with_current_twice t u w : with_current u (with_current t w) = with_current u w.
Proof. done. Qed.

(** X3.  A chain of [SetNow] calls, forwards or backwards in time: every call
    returns the instant that was current before it, [Now()] afterwards is
    the last instant set, and nothing else of the clock, of the memory or
    of the senders in flight changes. *)
Theorem SetNow_chain ts w :
  run w (CSetNow <$> ts)
  = Some (with_current (default (Now w) (last ts)) w,
          RTime <$> take (length ts) (Now w :: ts)).
Proof.
  revert w. induction ts as [|t ts IH]; intros w.
  - simpl. by rewrite with_current_id.
  - change (CSetNow <$> t :: ts) with (CSetNow t :: (CSetNow <$> ts)).
    apply run_cons. eexists (with_current t w), (RTime (Now w)), _.
    split; [done|]. split; [|done].
    rewrite IH, with_current_twice, last_cons. f_equal. f_equal.
    by destruct (last ts).
Qed.

(** ** The two scans agree *)


(** ** A Reset while a Send is parked *)

(** X6.  When a [Send] is parked on [TimeCh] and [Reset(d)] is called, the
    drain in [Reset] receives the value: no receiver will ever get it,
    the [Send] returns, and its epilogue clears the scheduled flag that
    this [Reset] had set.  The clock then holds [d] as its last duration
    and reads as not scheduled. *)
Theorem Reset_receives_parked_Send h t cs w rs d :
  run (NewClockFake h t) cs = Some (w, rs) -> quiet w ->
  exists w' rs',
    run w [CSendPrologue; CSendPark 0; CReset d; CSendEpilogue 0] = Some (w', rs') /\
    last rs' = Some (RTime (Now w)) /\
    step w' CRecv = Blocked /\
    quiet w' /\
    IsScheduled w' = false /\
    LastReset w' = Some (d, true) /\
    history w' = Some (recorded cs ++ [Some d]).
Proof.
  intros R Q. destruct (reachable_inv _ _ _ _ _ R) as [W E].
  destruct (Send_call_runs w _ [] [] (CReset d) [] W E Q)
    as (w' & rs1 & rs2 & rr & rs3 & Er & L1 & L2 & L3 & _ & W' & Q' & _ & _ & HS);
    try done.
  apply nil_length_inv in L1 as ->. apply nil_length_inv in L2 as ->.
  apply nil_length_inv in L3 as ->.
  destruct (run_inv _ _ _ _ _ W E Er) as [_ E'].
  change (recorded (Send_call [] [] (CReset d) [])) with [Some d] in E'.
  eexists w', _. split; [exact Er|]. split; [done|]. split.
  { simpl. unfold C_recv. destruct Q' as (_ & -> & _). done. }
  split; [done|]. split; [done|]. split; [|done].
  rewrite (LastReset_history _ _ E'). unfold LastReset_result.
  by rewrite last_armed_snoc_Some.
Qed.

(** ** ExhaustCh *)

(** X7.  Run on its own, the loop of [ExhaustCh] returns within three
    iterations, whichever case the select picks, and leaves both
    notification channels empty and everything else as it was. *)
Theorem ExhaustCh_empties_both fuel picks w :
  ExhaustCh (3 + fuel) picks w
  = Some (set_clock w (mkClockFake (current (clock w)) (TimeCh (clock w))
                                   (resetArg (clock w)) None None
                                   (sending (clock w)) (scheduled (clock w)))).
Proof.
  destruct w as [hp [cur q s rc sc sg sd] rd rs].
  simpl. unfold ExhaustCh_iter. simpl.
  destruct rc, sc; simpl;
    repeat (destruct (picks _); simpl); try done;
    destruct fuel; simpl; done.
Qed.

(** Two iterations are not always enough: with a value in both channels
    the third iteration is the one that returns. *)
Lemma ExhaustCh_needs_three picks w d :
  ResetCh (clock w) = Some d -> StopCh (clock w) = Some tt ->
  ExhaustCh 2 picks w = None.
Proof.
  intros Hr Hs. simpl. unfold ExhaustCh_iter. rewrite Hr, Hs.
  destruct (picks 1%nat); simpl; unfold ExhaustCh_iter; simpl; by rewrite ?Hr, ?Hs.
Qed.

(** ** Sends one after the other *)




(** ** IsSending *)

Lemma step_sending w c w' r :
  step w c = Returns w' r ->
  (c = CSendPrologue /\ in_flight w' <> []) \/
  ((exists k, c = CSendEpilogue k) /\ sending (clock w') = false) \/
  (sending (clock w') = sending (clock w) /\
   length (in_flight w') = length (in_flight w)).
Proof.
  unfold in_flight. destruct c; simpl.
  - intros [= <- <-]. by right; right.
  - intros [= <- <-]. by right; right.
  - destruct (Reset d w) as [w1|] eqn:E; simpl; [|done]. intros [= <- <-].
    destruct (Reset_fields _ _ _ E) as (_ & -> & _ & _ & _ & -> & -> & ->).
    right; right. split; [done|].
    destruct (TimeCh (clock w)); simpl;
      repeat (progress (rewrite ?length_app; simpl)); lia.
  - destruct (Stop w) as [[w1 b]|] eqn:E; simpl; [|done]. intros [= <- <-].
    destruct (Stop_fields _ _ _ E) as (_ & _ & -> & _ & _ & _ & -> & -> & ->).
    by right; right.
  - unfold Send_prologue. destruct (Send_loop _ _ _); simpl; [|done].
    intros [= <- <-]. left. split; [done|]. simpl.
    by destruct (ready w).
  - unfold Send_park. destruct (ready w !! k) as [x|] eqn:Ek; simpl; [|done].
    intros [= <- <-]. right; right. split; [done|]. simpl.
    pose proof (lookup_lt_Some _ _ _ Ek).
    repeat (progress (rewrite ?length_app, ?(length_delete (ready w) k) by eauto;
                      simpl)).
    lia.
  - unfold C_recv. destruct (TimeCh (clock w)) as [|x q]; simpl; [done|].
    intros [= <- <-]. right; right. split; [done|]. simpl.
    repeat (progress (rewrite ?length_app; simpl)). lia.
  - unfold Send_epilogue. destruct (resumed w !! k) as [x|]; simpl; [|done].
    intros [= <- <-]. right; left. split; [by exists k|done].
  - unfold ExhaustCh_iter.
    destruct (ResetCh (clock w)), (StopCh (clock w)), pick_reset;
      intros [= <- <-]; by right; right.
  - unfold CloneResetArg, make.
    destruct (copy _ _ _) as [[n h2]|]; simpl; [|done].
    intros [= <- <-]. by right; right.
  - destruct (LastReset w) as [[d ok]|]; simpl; [|done].
    intros [= <- <-]. by right; right.
  - intros [= <- <-]. by right; right.
  - intros [= <- <-]. by right; right.
Qed.

Lemma run_not_sending w cs w' rs :
  (in_flight w = [] -> sending (clock w) = false) ->
  run w cs = Some (w', rs) ->
  in_flight w' = [] -> sending (clock w') = false.
Proof.
  revert w rs. induction cs as [|c cs IH]; intros w rs I.
  - by intros [= <- <-].
  - rewrite run_cons. intros (w1 & r & rs1 & Es & Er & ->).
    apply (IH w1 rs1); [|done].
    destruct (step_sending _ _ _ _ Es) as [[_ N]|[[_ S]|[S L]]]; [done|done|].
    intros E1. rewrite S. apply I. apply nil_length_inv.
    by rewrite <- L, E1.
Qed.

(** X9.  [IsSending()] never reports a delivery that is not there: whenever no
    [Send] call is between its prologue and its epilogue, it returns
    false. *)
Theorem IsSending_false_when_no_Send_in_flight h t cs w rs :
  run (NewClockFake h t) cs = Some (w, rs) ->
  in_flight w = [] -> IsSending w = false.
Proof. intros R. by apply (run_not_sending (NewClockFake h t) cs w rs). Qed.

(** ** The notification channels *)

Lemma step_ResetCh w c w' r d :
  step w c = Returns w' r -> ResetCh (clock w') = Some d ->
  ResetCh (clock w) = Some d \/ c = CReset d.
Proof.
  destruct c; simpl.
  - intros [= <- <-]. by left.
  - intros [= <- <-]. by left.
  - destruct (Reset d0 w) as [w1|] eqn:E; simpl; [|done]. intros [= <- <-].
    destruct (Reset_fields _ _ _ E) as (_ & _ & _ & -> & _).
    destruct (ResetCh (clock w)); simpl; [by left|]. intros [= ->]. by right.
  - destruct (Stop w) as [[w1 b]|] eqn:E; simpl; [|done]. intros [= <- <-].
    destruct (Stop_fields _ _ _ E) as (_ & _ & _ & _ & -> & _). by left.
  - unfold Send_prologue. destruct (Send_loop _ _ _); simpl; [|done].
    intros [= <- <-]. by left.
  - unfold Send_park. destruct (ready w !! k); simpl; [|done].
    intros [= <- <-]. by left.
  - unfold C_recv. destruct (TimeCh (clock w)); simpl; [done|].
    intros [= <- <-]. by left.
  - unfold Send_epilogue. destruct (resumed w !! k); simpl; [|done].
    intros [= <- <-]. by left.
  - unfold ExhaustCh_iter. intros Es Hd. left.
    destruct (ResetCh (clock w)) eqn:Er, (StopCh (clock w)), pick_reset;
      injection Es as <- <-; unfold set_clock in Hd; simpl in Hd; congruence.
  - unfold CloneResetArg, make.
    destruct (copy _ _ _) as [[n h2]|]; simpl; [|done].
    intros [= <- <-]. by left.
  - destruct (LastReset w) as [[d0 ok]|]; simpl; [|done].
    intros [= <- <-]. by left.
  - intros [= <- <-]. by left.
  - intros [= <- <-]. by left.
Qed.

Lemma step_StopCh w c w' r :
  step w c = Returns w' r -> is_Some (StopCh (clock w')) ->
  is_Some (StopCh (clock w)) \/ c = CStop.
Proof.
  destruct c; simpl.
  - intros [= <- <-]. by left.
  - intros [= <- <-]. by left.
  - destruct (Reset d w) as [w1|] eqn:E; simpl; [|done]. intros [= <- <-].
    destruct (Reset_fields _ _ _ E) as (_ & _ & _ & _ & -> & _). by left.
  - intros _ _. by right.
  - unfold Send_prologue. destruct (Send_loop _ _ _); simpl; [|done].
    intros [= <- <-]. by left.
  - unfold Send_park. destruct (ready w !! k); simpl; [|done].
    intros [= <- <-]. by left.
  - unfold C_recv. destruct (TimeCh (clock w)); simpl; [done|].
    intros [= <- <-]. by left.
  - unfold Send_epilogue. destruct (resumed w !! k); simpl; [|done].
    intros [= <- <-]. by left.
  - unfold ExhaustCh_iter. intros Es [u Hu]. left.
    destruct (ResetCh (clock w)), (StopCh (clock w)) eqn:Ec, pick_reset;
      injection Es as <- <-; unfold set_clock in Hu; simpl in Hu;
      try done; rewrite ?Ec in Hu; try done; by eexists.
  - unfold CloneResetArg, make.
    destruct (copy _ _ _) as [[n h2]|]; simpl; [|done].
    intros [= <- <-]. by left.
  - destruct (LastReset w) as [[d0 ok]|]; simpl; [|done].
    intros [= <- <-]. by left.
  - intros [= <- <-]. by left.
  - intros [= <- <-]. by left.
Qed.

(** X10.  A value waiting on [ResetCh] is the duration of a [Reset] call that
    was made, and a value waits on [StopCh] only after a [Stop] call:
    the channels never signal a call that did not happen. *)
Theorem notifications_are_of_calls_made h t cs w rs :
  run (NewClockFake h t) cs = Some (w, rs) ->
  (forall d, ResetCh (clock w) = Some d -> CReset d ∈ cs) /\
  (is_Some (StopCh (clock w)) -> CStop ∈ cs).
Proof.
  assert (forall w0 cs w rs,
             run w0 cs = Some (w, rs) ->
             (forall d, ResetCh (clock w) = Some d ->
                        ResetCh (clock w0) = Some d \/ CReset d ∈ cs) /\
             (is_Some (StopCh (clock w)) ->
              is_Some (StopCh (clock w0)) \/ CStop ∈ cs)) as G.
  { clear. intros w0 cs. revert w0.
    induction cs as [|c cs IH]; intros w0 w rs.
    - intros [= <- <-]. split; [intros d|]; by left.
    - rewrite run_cons. intros (w1 & r & rs1 & Es & Er & ->).
      destruct (IH _ _ _ Er) as [IHr IHs]. split.
      + intros d Hd. destruct (IHr d Hd) as [H1|H1].
        * destruct (step_ResetCh _ _ _ _ _ Es H1) as [?| ->]; [by left|].
          right. by left.
        * right. by right.
      + intros Hs. destruct (IHs Hs) as [H1|H1].
        * destruct (step_StopCh _ _ _ _ Es H1) as [?| ->]; [by left|].
          right. by left.
        * right. by right. }
  intros R. destruct (G _ _ _ _ R) as [Gr Gs]. split.
  - intros d Hd. by destruct (Gr d Hd).
  - intros Hs. destruct (Gs Hs) as [[? [=]]|?]; done.
Qed.

(** ** Memory the clock does not own *)

Lemma append_frame hp s x s' hp' :
  valid_slice hp s -> append hp s x = Some (s', hp') ->
  durs hp' = durs hp /\
  (length (arrays hp) <= length (arrays hp'))%nat /\
  (arr s' = arr s \/ (length (arrays hp) <= arr s')%nat) /\
  forall a, a <> arr s -> (a < length (arrays hp))%nat ->
            arrays hp' !! a = arrays hp !! a.
Proof.
  intros (l & Hl & _). unfold append. rewrite Hl. simpl.
  case_decide; intros [= <- <-]; simpl.
  - split; [done|]. split; [by rewrite length_insert|]. split; [by left|].
    intros a Ha _. by apply list_lookup_insert_ne.
  - split; [done|]. split; [rewrite length_app; lia|]. split; [by right|].
    intros a _ Ha. by apply lookup_app_l.
Qed.

(** What a step may do to the memory: it allocates cells and arrays and
    writes to the array of [resetArg]; it writes to no other array that
    exists and to no cell that exists. *)
Lemma step_frame w c w' r :
  wf w -> step w c = Returns w' r ->
  (exists l, durs (heap w') = durs (heap w) ++ l) /\
  (length (arrays (heap w)) <= length (arrays (heap w')))%nat /\
  (arr (resetArg (clock w')) = arr (resetArg (clock w)) \/
   (length (arrays (heap w)) <= arr (resetArg (clock w')))%nat) /\
  forall a, a <> arr (resetArg (clock w)) ->
            (a < length (arrays (heap w)))%nat ->
            arrays (heap w') !! a = arrays (heap w) !! a.
Proof.
  intros [V _] Es.
  assert (heap w' = heap w /\ resetArg (clock w') = resetArg (clock w) ->
          (exists l, durs (heap w') = durs (heap w) ++ l) /\
          (length (arrays (heap w)) <= length (arrays (heap w')))%nat /\
          (arr (resetArg (clock w')) = arr (resetArg (clock w)) \/
           (length (arrays (heap w)) <= arr (resetArg (clock w')))%nat) /\
          forall a, a <> arr (resetArg (clock w)) ->
                    (a < length (arrays (heap w)))%nat ->
                    arrays (heap w') !! a = arrays (heap w) !! a) as Same.
  { intros [-> ->]. split; [exists []; by rewrite app_nil_r|].
    split; [done|]. split; [by left|done]. }
  destruct c; simpl in Es.
  - injection Es as <- <-. by apply Same.
  - injection Es as <- <-. by apply Same.
  - unfold Reset, new_dur in Es.
    set (h1 := mkHeap (durs (heap w) ++ [d]) (arrays (heap w))) in Es.
    assert (valid_slice h1 (resetArg (clock w))) as V1
      by (by apply (valid_slice_frame (heap w))).
    destruct (append h1 _ _) as [[s h2]|] eqn:Ea; simpl in Es; [|done].
    destruct (append_frame _ _ _ _ _ V1 Ea) as (Hd & Hl & Hs & Ha).
    destruct (TimeCh (clock w)); injection Es as <- <-; simpl;
      (split; [exists [d]; by rewrite Hd|done]).
  - unfold Stop in Es.
    destruct (append (heap w) _ _) as [[s h2]|] eqn:Ea; simpl in Es; [|done].
    destruct (append_frame _ _ _ _ _ V Ea) as (Hd & Hl & Hs & Ha).
    injection Es as <- <-. simpl.
    split; [exists []; by rewrite Hd, app_nil_r|done].
  - unfold Send_prologue in Es.
    destruct (Send_loop _ _ _); simpl in Es; [|done].
    injection Es as <- <-. by apply Same.
  - unfold Send_park in Es. destruct (ready w !! k); simpl in Es; [|done].
    injection Es as <- <-. by apply Same.
  - unfold C_recv in Es. destruct (TimeCh (clock w)); simpl in Es; [done|].
    injection Es as <- <-. by apply Same.
  - unfold Send_epilogue in Es. destruct (resumed w !! k); simpl in Es; [|done].
    injection Es as <- <-. by apply Same.
  - unfold ExhaustCh_iter in Es.
    destruct (ResetCh (clock w)), (StopCh (clock w)), pick_reset;
      injection Es as <- <-; by apply Same.
  - unfold CloneResetArg, make, copy in Es. simpl in Es.
    destruct (_ !! length (arrays (heap w))) as [dst|]; simpl in Es; [|done].
    destruct (_ !! arr (resetArg (clock w))) as [src|]; simpl in Es; [|done].
    injection Es as <- <-. simpl.
    split; [exists []; by rewrite app_nil_r|].
    split; [rewrite length_insert, length_app; lia|]. split; [by left|].
    intros a _ Ha. rewrite list_lookup_insert_ne by lia. by apply lookup_app_l.
  - destruct (LastReset w) as [[d ok]|]; simpl in Es; [|done].
    injection Es as <- <-. by apply Same.
  - injection Es as <- <-. by apply Same.
  - injection Es as <- <-. by apply Same.
Qed.

(** A slice on an array other than the one of [resetArg] is left alone by
    every schedule: same array, same elements, same durations read
    through them; and the clock never moves its history onto that
    array. *)
Lemma run_keeps_slice w cs w' rs s0 hs0 :
  wf w ->
  (arr s0 < length (arrays (heap w)))%nat ->
  arr s0 <> arr (resetArg (clock w)) ->
  view (heap w) s0 = Some hs0 ->
  run w cs = Some (w', rs) ->
  (arr s0 < length (arrays (heap w')))%nat /\
  arr s0 <> arr (resetArg (clock w')) /\
  arrays (heap w') !! arr s0 = arrays (heap w) !! arr s0 /\
  view (heap w') s0 = Some hs0.
Proof.
  revert w rs. induction cs as [|c cs IH]; intros w rs W L N Hv.
  - by intros [= <- <-].
  - rewrite run_cons. intros (w1 & r & rs1 & Es & Er & ->).
    destruct (step_frame _ _ _ _ W Es) as ([l Hd] & Hl & Hs & Ha).
    pose proof (step_wf _ _ _ _ W Es) as W1.
    assert (view (heap w1) s0 = Some hs0) as Hv1.
    { destruct (view_inv _ _ _ Hv) as (ps & Eps & Ehs). unfold view.
      rewrite (elems_frame (heap w1) (heap w)) by (by apply Ha).
      rewrite Eps. simpl. by apply (mapM_deref_alloc (heap w) _ l). }
    destruct (IH w1 rs1 W1) as (L' & N' & A' & V'); try done; try lia.
    repeat split; try done. rewrite A'. by apply Ha.
Qed.

(** X12.  The slice [CloneResetArg] returned is a snapshot: whatever is called
    on the clock afterwards, it keeps the entries and the durations it
    had, while the history of the clock goes on growing. *)
Theorem CloneResetArg_is_a_snapshot h t cs w rs w1 out cs2 w2 rs2 :
  run (NewClockFake h t) cs = Some (w, rs) ->
  CloneResetArg w = Some (w1, out) ->
  run w1 cs2 = Some (w2, rs2) ->
  view (heap w2) out = Some (recorded cs) /\
  elems (heap w2) out = elems (heap w1) out /\
  history w2 = Some (recorded cs ++ recorded cs2).
Proof.
  intros R EC R2. destruct (reachable_inv _ _ _ _ _ R) as [W E].
  destruct (CloneResetArg_spec w _ W E)
    as (w1' & out' & EC' & Hc & _ & _ & _ & Hne & Vo & _ & Hv & W1 & E1).
  rewrite EC in EC'. injection EC' as <- <-.
  destruct Vo as (l & Hl & _). pose proof (lookup_lt_Some _ _ _ Hl) as Hlt.
  destruct (run_keeps_slice w1 cs2 w2 rs2 out (recorded cs) W1 Hlt)
    as (_ & _ & Ha & Hv2); try done.
  { by rewrite Hc. }
  split; [done|]. split; [by apply elems_frame|].
  by destruct (run_inv _ _ _ _ _ W1 E1 R2).
Qed.

(** X13.  Two clocks made in the same memory do not share their histories:
    with [B] made after [A], whatever is called on [B] and then on [A],
    each holds the calls made on it. *)
Theorem clocks_do_not_share h tA tB csB wB rsB csA wA rsA :
  run (NewClockFake (heap (NewClockFake h tA)) tB) csB = Some (wB, rsB) ->
  run (mkWorld (heap wB) (clock (NewClockFake h tA)) [] []) csA = Some (wA, rsA) ->
  history wA = Some (recorded csA) /\
  view (heap wA) (resetArg (clock wB)) = Some (recorded csB).
Proof.
  intros RB RA.
  set (A0 := NewClockFake h tA) in *. set (sA := resetArg (clock A0)) in *.
  set (B0 := NewClockFake (heap A0) tB) in *.
  destruct (NewClockFake_wf (heap A0) tB) as [WB0 EB0]. fold B0 in WB0, EB0.
  destruct (reachable_inv _ _ _ _ _ RB) as [WB EB].
  assert (arrays (heap B0) !! arr sA = Some []) as HA0.
  { unfold B0, A0, sA. simpl.
    rewrite lookup_app_l by (rewrite length_app; simpl; lia).
    by rewrite lookup_app_r, Nat.sub_diag by done. }
  assert (view (heap B0) sA = Some []) as VA0.
  { unfold view, elems. rewrite HA0. done. }
  destruct (run_keeps_slice B0 csB wB rsB sA [] WB0) as (LA & NA & AA & VA);
    try done.
  { by apply lookup_lt_Some in HA0. }
  { unfold B0, A0, sA. simpl. rewrite length_app. simpl. lia. }
  set (A1 := mkWorld (heap wB) (clock A0) [] []) in *.
  assert (wf A1) as WA1.
  { split; [|by exists []].
    exists []. split; [|done]. change (arrays (heap wB) !! arr sA = Some []).
    by rewrite AA. }
  destruct (run_inv _ _ _ _ _ WA1 VA RA) as [_ EA]. split; [done|].
  destruct WB as [(l & Hl & _) _].
  destruct (run_keeps_slice A1 csA wA rsA (resetArg (clock wB)) (recorded csB) WA1)
    as (_ & _ & _ & V'); try done.
  by apply lookup_lt_Some in Hl.
Qed.

(** ** The first notification is kept *)

Lemma step_keeps_notification w c w' r :
  step w c = Returns w' r -> (forall b, c <> CExhaustCh b) ->
  (forall d, ResetCh (clock w) = Some d -> ResetCh (clock w') = Some d) /\
  (StopCh (clock w) = Some tt -> StopCh (clock w') = Some tt).
Proof.
  destruct c; simpl.
  - by intros [= <- <-].
  - by intros [= <- <-].
  - destruct (Reset d w) as [w1|] eqn:E; simpl; [|done]. intros [= <- <-] _.
    destruct (Reset_fields _ _ _ E) as (_ & _ & _ & -> & -> & _).
    split; [|done]. by intros d0 ->.
  - destruct (Stop w) as [[w1 b]|] eqn:E; simpl; [|done]. intros [= <- <-] _.
    destruct (Stop_fields _ _ _ E) as (_ & _ & _ & _ & -> & -> & _).
    split; [done|]. by intros ->.
  - unfold Send_prologue. destruct (Send_loop _ _ _); simpl; [|done].
    by intros [= <- <-].
  - unfold Send_park. destruct (ready w !! k); simpl; [|done].
    by intros [= <- <-].
  - unfold C_recv. destruct (TimeCh (clock w)); simpl; [done|].
    by intros [= <- <-].
  - unfold Send_epilogue. destruct (resumed w !! k); simpl; [|done].
    by intros [= <- <-].
  - intros _ N. by destruct (N pick_reset).
  - unfold CloneResetArg, make.
    destruct (copy _ _ _) as [[n h2]|]; simpl; [|done]. by intros [= <- <-].
  - destruct (LastReset w) as [[d ok]|]; simpl; [|done]. by intros [= <- <-].
  - by intros [= <- <-].
  - by intros [= <- <-].
Qed.

(** X11.  [Reset] and [Stop] notify without blocking and without overwriting:
    when [ResetCh] is empty, [Reset(d)] leaves [d] on it, and [d] stays
    there through every later call, further [Reset] calls with other
    durations included, until [ExhaustCh] takes it; likewise the value a
    [Stop] leaves on [StopCh]. *)
Theorem first_notification_is_kept w d l1 w1 rs1 l2 w2 rs2 :
  ResetCh (clock w) = None ->
  Forall (fun c => forall b, c <> CExhaustCh b) (l1 ++ l2) ->
  run w (CReset d :: l1) = Some (w1, rs1) ->
  run w1 (CStop :: l2) = Some (w2, rs2) ->
  ResetCh (clock w1) = Some d /\ ResetCh (clock w2) = Some d /\
  StopCh (clock w2) = Some tt.
Proof.
  assert (forall cs w w' rs,
             Forall (fun c => forall b, c <> CExhaustCh b) cs ->
             run w cs = Some (w', rs) ->
             (forall d, ResetCh (clock w) = Some d -> ResetCh (clock w') = Some d) /\
             (StopCh (clock w) = Some tt -> StopCh (clock w') = Some tt)) as G.
  { clear. induction cs as [|c cs IH]; intros w w' rs F.
    - by intros [= <- <-].
    - rewrite run_cons. intros (w1 & r & rs1 & Es & Er & ->).
      apply Forall_cons in F as [Fc F].
      destruct (step_keeps_notification _ _ _ _ Es Fc) as [S1 S2].
      destruct (IH _ _ _ F Er) as [I1 I2]. split; [|by auto].
      intros d Hd. by apply I1, S1. }
  intros HN F R1 R2. apply Forall_app in F as [F1 F2].
  apply run_cons in R1 as (wa & ra & rsa & Ea & Ra & ->).
  apply run_cons in R2 as (wb & rb & rsb & Eb & Rb & ->).
  simpl in Ea, Eb.
  destruct (Reset d w) as [wa'|] eqn:ER; simpl in Ea; [|done].
  injection Ea as <- <-.
  destruct (Reset_fields _ _ _ ER) as (_ & _ & _ & Hr & _).
  rewrite HN in Hr. simpl in Hr.
  destruct (G _ _ _ _ F1 Ra) as [G1 _]. pose proof (G1 d Hr) as H1.
  destruct (Stop w1) as [[wb' b]|] eqn:ES; simpl in Eb; [|done].
  injection Eb as <- <-.
  destruct (Stop_fields _ _ _ ES) as (_ & _ & _ & _ & Hr2 & Hs2 & _).
  destruct (G _ _ _ _ F2 Rb) as [G2 G3].
  split; [done|]. split.
  - apply G2. by rewrite Hr2.
  - apply G3. rewrite Hs2. by destruct (StopCh (clock w1)) as [[]|].
Qed.

(** ** Every Reset stores a pointer of its own *)

Lemma nodup_omap_lookup {A} (ps : list (option A)) i j p :
  NoDup (omap id ps) ->
  ps !! i = Some (Some p) -> ps !! j = Some (Some p) -> i = j.
Proof.
  revert i j. induction ps as [|x ps IH]; intros i j N Hi Hj; [done|].
  assert (forall k, ps !! k = Some (Some p) -> p ∈ omap id ps) as In.
  { intros k Hk. apply list_elem_of_omap. exists (Some p).
    split; [by apply list_elem_of_lookup_2 in Hk|done]. }
  destruct x as [q|]; simpl in N.
  - apply NoDup_cons in N as [Nq N].
    destruct i as [|i], j as [|j]; simpl in *; try done.
    + injection Hi as ->. by destruct Nq; apply (In j).
    + injection Hj as ->. by destruct Nq; apply (In i).
    + f_equal. by apply IH.
  - destruct i as [|i], j as [|j]; simpl in *; try done.
    f_equal. by apply IH.
Qed.

Lemma step_fresh_ptrs w c w' r :
  wf w -> fresh_ptrs w -> step w c = Returns w' r -> fresh_ptrs w'.
Proof.
  intros W (ps & Eps & N & F) Es. pose proof W as [V [hs E]].
  assert (heap w' = heap w /\ resetArg (clock w') = resetArg (clock w) ->
          fresh_ptrs w') as Same.
  { intros [Hh Hs]. exists ps. by rewrite Hh, Hs. }
  destruct c; simpl in Es.
  - injection Es as <- <-. by apply Same.
  - injection Es as <- <-. by apply Same.
  - unfold Reset, new_dur in Es.
    set (h1 := mkHeap (durs (heap w) ++ [d]) (arrays (heap w))) in Es.
    assert (valid_slice h1 (resetArg (clock w))) as V1
      by (by apply (valid_slice_frame (heap w))).
    assert (elems h1 (resetArg (clock w)) = Some ps) as E1
      by (by rewrite <- (elems_frame (heap w) h1)).
    destruct (append_elems h1 _ (Some (length (durs (heap w)))) ps V1 E1)
      as (s' & h2 & Ea & Hd & _ & E2).
    rewrite Ea in Es. simpl in Es.
    assert (fresh_ptrs (mkWorld h2 (mkClockFake (current (clock w)) [] s' None None
                                                false false) [] [])) as (ps' & P1 & P2 & P3).
    { exists (ps ++ [Some (length (durs (heap w)))]). split; [done|].
      rewrite omap_app. simpl. rewrite Hd. simpl. split.
      - apply NoDup_app. split; [done|]. split; [|apply NoDup_singleton].
        intros q Hq ->%list_elem_of_singleton.
        rewrite Forall_forall in F. specialize (F _ Hq). lia.
      - apply Forall_app. split.
        + eapply Forall_impl; [exact F|]. intros q Hq. simpl in Hq.
          rewrite length_app. simpl. lia.
        + constructor; [|done]. rewrite length_app. simpl. lia. }
    destruct (TimeCh (clock w)); injection Es as <- <-; by exists ps'.
  - unfold Stop in Es.
    destruct (append_elems (heap w) _ None ps V Eps) as (s' & h2 & Ea & Hd & _ & E2).
    rewrite Ea in Es. simpl in Es. injection Es as <- <-.
    exists (ps ++ [None]). split; [done|]. simpl.
    rewrite omap_app. simpl. rewrite app_nil_r, Hd. done.
  - unfold Send_prologue in Es.
    destruct (Send_loop _ _ _); simpl in Es; [|done].
    injection Es as <- <-. by apply Same.
  - unfold Send_park in Es. destruct (ready w !! k); simpl in Es; [|done].
    injection Es as <- <-. by apply Same.
  - unfold C_recv in Es. destruct (TimeCh (clock w)); simpl in Es; [done|].
    injection Es as <- <-. by apply Same.
  - unfold Send_epilogue in Es. destruct (resumed w !! k); simpl in Es; [|done].
    injection Es as <- <-. by apply Same.
  - unfold ExhaustCh_iter in Es.
    destruct (ResetCh (clock w)), (StopCh (clock w)), pick_reset;
      injection Es as <- <-; by apply Same.
  - destruct (CloneResetArg_spec w hs W E)
      as (w1 & out & EC & Hc & _ & _ & Hd & _).
    rewrite EC in Es. simpl in Es. injection Es as <- <-.
    exists ps. rewrite Hc, Hd, (CloneResetArg_internal _ _ _ W EC). done.
  - destruct (LastReset w) as [[d ok]|]; simpl in Es; [|done].
    injection Es as <- <-. by apply Same.
  - injection Es as <- <-. by apply Same.
  - injection Es as <- <-. by apply Same.
Qed.

Lemma reachable_fresh_ptrs h t cs w rs :
  run (NewClockFake h t) cs = Some (w, rs) -> fresh_ptrs w.
Proof.
  assert (forall cs w w' rs, wf w -> fresh_ptrs w ->
                             run w cs = Some (w', rs) -> fresh_ptrs w') as G.
  { clear cs w rs. induction cs as [|c cs IH]; intros w w' rs W P.
    - by intros [= <- <-].
    - rewrite run_cons. intros (w1 & r & rs1 & Es & Er & ->).
      apply (IH w1 w' rs1); [by apply (step_wf _ _ _ _ W Es)| |done].
      by apply (step_fresh_ptrs _ _ _ _ W P Es). }
  destruct (NewClockFake_wf h t) as [W0 _]. apply G; [done|].
  exists []. split; [|split; [apply NoDup_nil_2|done]].
  unfold elems. simpl. by rewrite lookup_app_r, Nat.sub_diag by done.
Qed.

(** X14.  Each [Reset] stores the address of its own parameter, so no two
    entries of the history share a cell: a store of [v] through entry
    [i] of a slice from [CloneResetArg] turns entry [i] of the history
    into [v] and leaves every other entry as it was. *)
Theorem store_through_changes_one_entry h t cs w rs w1 out i p v :
  run (NewClockFake h t) cs = Some (w, rs) ->
  CloneResetArg w = Some (w1, out) ->
  index (heap w1) out i = Some (Some p) ->
  exists w3,
    store_through out i v w1 = Some w3 /\
    history w3 = Some (<[i := Some v]> (recorded cs)) /\
    view (heap w3) out = Some (<[i := Some v]> (recorded cs)).
Proof.
  intros R EC Hi. destruct (reachable_inv _ _ _ _ _ R) as [W E].
  destruct (reachable_fresh_ptrs _ _ _ _ _ R) as (ps & Eps & N & F).
  destruct (CloneResetArg_spec w _ W E)
    as (w1' & out' & EC' & Hc & _ & _ & Hd & _ & _ & Eo & Hv & W1 & E1).
  rewrite EC in EC'. injection EC' as <- <-.
  pose proof (CloneResetArg_internal _ _ _ W EC) as Ei.
  rewrite Eps in Eo, Ei.
  assert (i < len out)%nat as Hlt by (unfold index in Hi; by case_decide).
  assert (ps !! i = Some (Some p)) as Hps
    by (by rewrite <- (index_elems _ _ _ _ Eo Hlt)).
  assert (mapM (deref (heap w1)) ps = Some (recorded cs)) as Ehs.
  { unfold view in Hv. by rewrite Eo in Hv. }
  apply mapM_Some in Ehs.
  assert (p < length (durs (heap w1)))%nat as Hp.
  { rewrite Hd. rewrite Forall_forall in F. apply F.
    apply list_elem_of_omap. exists (Some p).
    split; [by apply list_elem_of_lookup_2 in Hps|done]. }
  unfold store_through, store. rewrite Hi. simpl. case_decide; [|lia]. simpl.
  set (h3 := mkHeap _ _).
  assert (mapM (deref h3) ps = Some (<[i := Some v]> (recorded cs))) as E3.
  { apply mapM_Some. apply Forall2_same_length_lookup_2.
    - rewrite length_insert. by apply Forall2_length in Ehs.
    - intros j x y Hx Hy. destruct (decide (j = i)) as [->|Hne].
      + rewrite Hps in Hx. injection Hx as <-.
        rewrite list_lookup_insert_eq in Hy
          by (apply Forall2_length in Ehs; rewrite <- Ehs;
              by apply lookup_lt_Some in Hps).
        injection Hy as <-. simpl. unfold load. simpl.
        by rewrite list_lookup_insert_eq.
      + rewrite list_lookup_insert_ne in Hy by done.
        pose proof (Forall2_lookup_lr _ _ _ _ _ _ Ehs Hx Hy) as Hdj.
        destruct x as [q|]; [|done]. simpl in *. unfold load in *. simpl.
        rewrite list_lookup_insert_ne; [done|].
        intros <-. apply Hne. by apply (nodup_omap_lookup ps j i p). }
  assert (forall s, elems h3 s = elems (heap w1) s) as Ef
    by (intros s; by apply elems_frame).
  eexists. split; [done|]. unfold history, view. simpl.
  rewrite !Ef, Hc, Ei, Eo. simpl. by rewrite E3.
Qed.

(** ** Overlapping Sends *)



End Further.

(** * Concrete runs *)

#[local] Existing Instance doubling.

(** The run of TestClockFake: every [Send] returns the [Now()] read
    before it and delivers an instant before the [Now()] read after the
    receive; [Stop] returns false, false, true, false; [LastReset] returns
    (0, false) and then (1s, true) twice; the history at the end is the
    one the test compares with. *)
Example TestClockFake_run :
  (fun '(w, rs) => (rs, history w))
    <$> run (NewClockFake empty_heap 0) TestClockFake_calls
  = Some ([RTime 0; RUnit; RUnit; RBool true; RBool true;
           RTime 0; RTime 1; RTime 0; RBool false;
           RTime 1; RUnit; RUnit; RBool true; RBool true;
           RTime 1; RTime 2; RTime 1; RBool false;
           RBool false; RLast 0 false; RUnit; RTime 2;
           RTime 2; RUnit; RUnit; RBool true; RBool true;
           RTime 1000000002; RTime 1000000003; RTime 2;
           RBool false; RTime 1000000003; RLast 1000000000 true;
           RBool false; RLast 1000000000 true; RUnit; RUnit; RUnit; RUnit;
           RBool true; RTime 1000000003; RUnit; RUnit;
           RBool true; RBool false; RTime 4000000003;
           RTime 1000000003; RSlice (mkSlice 5 6 6)],
          Some [None; Some time.Second; None; Some (3 * time.Second); None; None]).
Proof. vm_compute. reflexivity. Qed.


(** C5 as stated fails.  After [Reset(5)] the caller takes
    [out := c.CloneResetArg()] and stores 7 through [out[0]]: [LastReset]
    answered 5 before and answers 7 after, and the history and the next
    [Send] use 7. *)
Lemma store_through_clone_changes_history :
  (w0 ← fst <$> run (NewClockFake empty_heap 0) [CReset 5];
   '(w1, out) ← CloneResetArg w0;
   w2 ← store_through out 0 7 w1;
   Some (LastReset w0, LastReset w2, history w2, ready <$> Send_prologue w2))
  = Some (Some (5, true), Some (7, true), Some [Some 7], Some [mkSender 0 7]).
Proof. vm_compute. reflexivity. Qed.

(** C7 as stated fails.  A new clock is idle, its history is empty and
    [StopCh] holds nothing; [Stop] returns false, and afterwards the
    history has one nil entry and [StopCh] holds a value. *)
Lemma Stop_while_idle_is_recorded :
  (history (NewClockFake empty_heap 0),
   StopCh (clock (NewClockFake empty_heap 0)),
   (fun '(w, rs) => (rs, history w, StopCh (clock w)))
     <$> run (NewClockFake empty_heap 0) [CIsScheduled; CIsSending; CStop])
  = (Some [], None,
     Some ([RBool false; RBool false; RBool false], Some [None], Some tt)).
Proof. vm_compute. reflexivity. Qed.

(** ** The theorems at a concrete schedule

    The clock starts at 0 and records [Stop(); Reset(1s); Stop()]; a
    [Send] is then received by [<-c.C()], with [IsSending()] called while
    it is parked and [Now()] called before it returns. *)






Lemma history_in_call_order_witness :
  exists w rs,
    run (NewClockFake empty_heap 0) [CReset time.Second; CStop] = Some (w, rs) /\
    exists w1 rs1 w2 out,
      run w (arm_cancel [Some (3 * time.Second); None]) = Some (w1, rs1) /\
      CloneResetArg w1 = Some (w2, out) /\
      view (heap w2) out
      = Some (recorded [CReset time.Second; CStop] ++ [Some (3 * time.Second); None]) /\
      history w1
      = Some (recorded [CReset time.Second; CStop] ++ [Some (3 * time.Second); None]) /\
      forall c w' r,
        step w1 c = Returns w' r ->
        history w'
        = Some ((recorded [CReset time.Second; CStop] ++ [Some (3 * time.Second); None])
                  ++ recorded [c]).
Proof.
  eexists _, _. split; [vm_compute; reflexivity|].
  eapply (history_in_call_order empty_heap 0 [CReset time.Second; CStop]).
  vm_compute. reflexivity.
Defined.

Lemma Stop_returns_scheduled_witness :
  exists w rs,
    run (NewClockFake empty_heap 0) [CReset time.Second] = Some (w, rs) /\
    exists w',
      Stop w = Some (w', IsScheduled w) /\
      IsScheduled w' = false /\
      (IsScheduled w = true <->
       exists l1 d l2,
         [CReset time.Second] = l1 ++ CReset d :: l2 /\
         Forall (fun c => c <> CStop /\ forall k, c <> CSendEpilogue k) l2).
Proof.
  eexists _, _. split; [vm_compute; reflexivity|].
  eapply (Stop_returns_scheduled empty_heap 0 [CReset time.Second]).
  vm_compute. reflexivity.
Defined.

Lemma Stop_while_idle_witness :
  exists w rs,
    run (NewClockFake empty_heap 0) [CReset time.Second; CStop] = Some (w, rs) /\
    IsScheduled w = false /\ IsSending w = false /\
    exists w',
      Stop w = Some (w', false) /\
      Now w' = Now w /\ IsScheduled w' = false /\ IsSending w' = false /\
      flight w' = flight w /\
      ResetCh (clock w') = ResetCh (clock w) /\
      LastReset w' = LastReset w /\
      history w = Some (recorded [CReset time.Second; CStop]) /\
      history w' = Some (recorded [CReset time.Second; CStop] ++ [None]) /\
      StopCh (clock w') = try_send (StopCh (clock w)) tt.
Proof.
  eexists _, _. split; [vm_compute; reflexivity|].
  split; [by vm_compute|]. split; [by vm_compute|].
  eapply (Stop_while_idle empty_heap 0 [CReset time.Second; CStop]).
  - vm_compute. reflexivity.
  - by vm_compute.
  - by vm_compute.
Defined.

Lemma LastReset_most_recent_armed_witness :
  exists w rs,
    run (NewClockFake empty_heap 0) [CReset time.Second; CStop] = Some (w, rs) /\
    exists w1 rs1 dur ok,
      run w (arm_cancel [Some (3 * time.Second); None; None]) = Some (w1, rs1) /\
      LastReset w1 = Some (dur, ok) /\
      (forall l1 d l2,
          recorded [CReset time.Second; CStop] ++ [Some (3 * time.Second); None; None]
          = l1 ++ Some d :: l2 ->
          Forall (fun x => x = None) l2 -> dur = d /\ ok = true) /\
      (ok = false <->
       Forall (fun x => x = None)
         (recorded [CReset time.Second; CStop] ++ [Some (3 * time.Second); None; None])) /\
      (ok = false -> dur = 0).
Proof.
  eexists _, _. split; [vm_compute; reflexivity|].
  eapply (LastReset_most_recent_armed empty_heap 0 [CReset time.Second; CStop]).
  vm_compute. reflexivity.
Defined.

Lemma CloneResetArg_copies_the_slice_witness :
  exists w rs w1 out w2,
    run (NewClockFake empty_heap 0) [CReset 5; CStop] = Some (w, rs) /\
    CloneResetArg w = Some (w1, out) /\
    set_elems out [(0%nat, None); (1%nat, Some 0%nat)] w1 = Some w2 /\
    view (heap w1) out = Some (recorded [CReset 5; CStop]) /\
    elems (heap w1) out = elems (heap w) (resetArg (clock w)) /\
    clock w2 = clock w /\
    history w2 = Some (recorded [CReset 5; CStop]) /\
    LastReset w2 = LastReset w /\
    ready <$> Send_prologue w2 = ready <$> Send_prologue w /\
    (exists w3 out',
       CloneResetArg w2 = Some (w3, out') /\
       view (heap w3) out' = Some (recorded [CReset 5; CStop])) /\
    (forall i p v,
       index (heap w1) out i = Some (Some p) ->
       exists w3 hs',
         store_through out i v w1 = Some w3 /\
         history w3 = Some hs' /\ hs' !! i = Some (Some v)).
Proof.
  eexists _, _, _, _, _. split; [vm_compute; reflexivity|].
  split; [vm_compute; reflexivity|]. split; [vm_compute; reflexivity|].
  eapply (CloneResetArg_copies_the_slice empty_heap 0 [CReset 5; CStop] _ _ _ _
            [(0%nat, None); (1%nat, Some 0%nat)]).
  - vm_compute. reflexivity.
  - vm_compute. reflexivity.
  - vm_compute. reflexivity.
Defined.

(** ** The further properties at concrete schedules *)

Lemma calls_never_panic_witness :
  exists w rs,
    run (NewClockFake empty_heap 0) [CReset time.Second; CSendPrologue] = Some (w, rs) /\
    step w CLastReset <> Panic /\
    (method_entry CLastReset = true -> exists w' r, step w CLastReset = Returns w' r) /\
    (step w CRecv = Blocked <-> TimeCh (clock w) = []).
Proof.
  eexists _, _. split; [vm_compute; reflexivity|].
  eapply (calls_never_panic empty_heap 0 [CReset time.Second; CSendPrologue]).
  vm_compute. reflexivity.
Defined.

Lemma Now_moves_only_by_SetNow_and_Send_witness :
  exists w' rs,
    run (NewClockFake empty_heap 0) [CReset time.Second; CStop; CCloneResetArg]
    = Some (w', rs) /\
    Forall (fun c => sets_clock c = false) [CReset time.Second; CStop; CCloneResetArg] /\
    Now w' = Now (NewClockFake empty_heap 0).
Proof.
  eexists _, _. split; [vm_compute; reflexivity|].
  split; [by repeat constructor|].
  eapply (Now_moves_only_by_SetNow_and_Send (NewClockFake empty_heap 0)
            [CReset time.Second; CStop; CCloneResetArg]).
  - vm_compute. reflexivity.
  - by repeat constructor.
Defined.


Lemma Reset_receives_parked_Send_witness :
  exists w rs,
    run (NewClockFake empty_heap 0) [CReset time.Second] = Some (w, rs) /\
    quiet w /\
    exists w' rs',
      run w [CSendPrologue; CSendPark 0; CReset 5; CSendEpilogue 0] = Some (w', rs') /\
      last rs' = Some (RTime (Now w)) /\
      step w' CRecv = Blocked /\
      quiet w' /\
      IsScheduled w' = false /\
      LastReset w' = Some (5, true) /\
      history w' = Some (recorded [CReset time.Second] ++ [Some 5]).
Proof.
  eexists _, _. split; [vm_compute; reflexivity|]. split; [by vm_compute|].
  eapply (Reset_receives_parked_Send empty_heap 0 [CReset time.Second]).
  - vm_compute. reflexivity.
  - by vm_compute.
Defined.


Lemma IsSending_false_when_no_Send_in_flight_witness :
  exists w rs,
    run (NewClockFake empty_heap 0)
        [CSendPrologue; CSendPark 0; CRecv; CSendEpilogue 0] = Some (w, rs) /\
    in_flight w = [] /\
    IsSending w = false.
Proof.
  eexists _, _. split; [vm_compute; reflexivity|]. split; [by vm_compute|].
  eapply (IsSending_false_when_no_Send_in_flight empty_heap 0
            [CSendPrologue; CSendPark 0; CRecv; CSendEpilogue 0]).
  - vm_compute. reflexivity.
  - by vm_compute.
Defined.

Lemma notifications_are_of_calls_made_witness :
  exists w rs,
    run (NewClockFake empty_heap 0) [CReset time.Second; CStop; CReset 5] = Some (w, rs) /\
    (forall d, ResetCh (clock w) = Some d -> CReset d ∈ [CReset time.Second; CStop; CReset 5]) /\
    (is_Some (StopCh (clock w)) -> CStop ∈ [CReset time.Second; CStop; CReset 5]).
Proof.
  eexists _, _. split; [vm_compute; reflexivity|].
  eapply (notifications_are_of_calls_made empty_heap 0 [CReset time.Second; CStop; CReset 5]).
  vm_compute. reflexivity.
Defined.

Lemma first_notification_is_kept_witness :
  exists w1 rs1 w2 rs2,
    ResetCh (clock (NewClockFake empty_heap 0)) = None /\
    Forall (fun c => forall b, c <> CExhaustCh b) ([CReset 5] ++ [CNow]) /\
    run (NewClockFake empty_heap 0) (CReset time.Second :: [CReset 5]) = Some (w1, rs1) /\
    run w1 (CStop :: [CNow]) = Some (w2, rs2) /\
    ResetCh (clock w1) = Some time.Second /\ ResetCh (clock w2) = Some time.Second /\
    StopCh (clock w2) = Some tt.
Proof.
  eexists _, _, _, _. split; [done|]. split; [by repeat constructor|].
  split; [vm_compute; reflexivity|]. split; [vm_compute; reflexivity|].
  eapply (first_notification_is_kept (NewClockFake empty_heap 0) time.Second
            [CReset 5] _ _ [CNow]).
  - done.
  - by repeat constructor.
  - vm_compute. reflexivity.
  - vm_compute. reflexivity.
Defined.

Lemma CloneResetArg_is_a_snapshot_witness :
  exists w rs w1 out w2 rs2,
    run (NewClockFake empty_heap 0) [CReset 5] = Some (w, rs) /\
    CloneResetArg w = Some (w1, out) /\
    run w1 [CStop; CReset 7] = Some (w2, rs2) /\
    view (heap w2) out = Some (recorded [CReset 5]) /\
    elems (heap w2) out = elems (heap w1) out /\
    history w2 = Some (recorded [CReset 5] ++ recorded [CStop; CReset 7]).
Proof.
  eexists _, _, _, _, _, _. split; [vm_compute; reflexivity|].
  split; [vm_compute; reflexivity|]. split; [vm_compute; reflexivity|].
  eapply (CloneResetArg_is_a_snapshot empty_heap 0 [CReset 5] _ _ _ _ [CStop; CReset 7]).
  - vm_compute. reflexivity.
  - vm_compute. reflexivity.
  - vm_compute. reflexivity.
Defined.

Lemma clocks_do_not_share_witness :
  exists wB rsB wA rsA,
    run (NewClockFake (heap (NewClockFake empty_heap 0)) 10) [CReset 1; CStop]
    = Some (wB, rsB) /\
    run (mkWorld (heap wB) (clock (NewClockFake empty_heap 0)) [] []) [CStop; CReset 2]
    = Some (wA, rsA) /\
    history wA = Some (recorded [CStop; CReset 2]) /\
    view (heap wA) (resetArg (clock wB)) = Some (recorded [CReset 1; CStop]).
Proof.
  eexists _, _, _, _. split; [vm_compute; reflexivity|].
  split; [vm_compute; reflexivity|].
  eapply (clocks_do_not_share empty_heap 0 10 [CReset 1; CStop] _ _ [CStop; CReset 2]).
  - vm_compute. reflexivity.
  - vm_compute. reflexivity.
Defined.

Lemma store_through_changes_one_entry_witness :
  exists w rs w1 out,
    run (NewClockFake empty_heap 0) [CReset 5; CStop; CReset 6] = Some (w, rs) /\
    CloneResetArg w = Some (w1, out) /\
    index (heap w1) out 2 = Some (Some 1%nat) /\
    exists w3,
      store_through out 2 9 w1 = Some w3 /\
      history w3 = Some (<[2%nat := Some 9]> (recorded [CReset 5; CStop; CReset 6])) /\
      view (heap w3) out = Some (<[2%nat := Some 9]> (recorded [CReset 5; CStop; CReset 6])).
Proof.
  eexists _, _, _, _. split; [vm_compute; reflexivity|].
  split; [vm_compute; reflexivity|]. split; [vm_compute; reflexivity|].
  eapply (store_through_changes_one_entry empty_heap 0 [CReset 5; CStop; CReset 6]).
  - vm_compute. reflexivity.
  - vm_compute. reflexivity.
  - vm_compute. reflexivity.
Defined.

